(** * Backtracking line search (openmdao/solvers/nl_btlinesearch.py)

    A shallow embedding of [BacktrackingLineSearch] and of the vector test
    [test_dot], with the properties stated for them.

    Conventions of the embedding.

    - Scalars.  Python floats are read in exact arithmetic, as canonical
      rationals ([Qc]): every finite double is such a rational, the
      operations are the exact ones, and rounding, infinities and
      not-a-number are outside the model.
    - Vector objects live in a store ([heap]) and are named by references
      ([loc]); [system._outputs] and [system._vectors['output']['']] are
      references, so in-place mutation and aliasing are visible.
    - A method is a computation in a state-and-exception monad over [world]
      (the store, the solver object and a log of the calls it issues).
    - The options registry is a dictionary from option names to values. *)

From Stdlib Require Import ZArith QArith Qcanon.
From stdpp Require Import base numbers gmap strings list pretty sorting.

Open Scope Qc_scope.
Open Scope string_scope.

(** ** Vectors: the data level *)

Module Vector.

Definition vec : Type := list Qc.

(** Modelled from the spec: the vector class is not among the sources
    (only its test is).  Section 4.1: [add_scaled(alpha, other)] is
    [self <- self + alpha * other], element-wise.  The contract leaves
    operands of different layout undefined and does not validate them;
    here the result stops at the shorter operand. *)
Definition add_scal_vec (alpha : Qc) (self other : vec) : vec :=
  zip_with (fun x d => x + alpha * d) self other.

(** Modelled from the spec: [set_const(value)] fills every element with
    [value]; the layout is kept. *)
Definition set_const (value : Qc) (self : vec) : vec :=
  (fun _ => value) <$> self.

(** Modelled from the spec: [dot(other)] is the sum of the element-wise
    products. *)
Definition dot (self other : vec) : Qc :=
  foldr Qcplus 0 (zip_with Qcmult self other).

(** The sum of the elements, as the spec's [sum(v)]. *)
Definition sum (v : vec) : Qc := foldr Qcplus 0 v.

End Vector.

Abbreviation vec := Vector.vec.

(** ** Values, exceptions, the world *)

Definition loc : Type := nat.

(** What an option can hold: Python's [bool], [int] and [float]. *)
Inductive value : Type :=
  | VBool (b : bool)
  | VInt (n : Z)
  | VFloat (x : Qc).

(** The number a value stands for in arithmetic ([True] is 1, [False] 0). *)
Definition num (v : value) : Qc :=
  match v with
  | VBool b => if b then 1 else 0
  | VInt n => Q2Qc (inject_Z n)
  | VFloat x => x
  end.

(** [InvalidReference] stands for a reference to no object, which Python
    cannot produce; the statements below are about attached worlds. *)
Inductive exn : Type :=
  | KeyError (key : string)
  | AttributeError (name : string)
  | TypeError (what : string)
  | InvalidReference (l : loc).

Inductive result (A : Type) : Type :=
  | Ok (a : A)
  | Raise (e : exn).
Arguments Ok {A} a.
Arguments Raise {A} e.

(** The system the solver is attached to: [_outputs] is a vector object,
    [_vectors] the nested dictionary [kind -> name -> vector object]. *)
Record System : Type := mkSystem {
  _outputs : loc;
  _vectors : gmap string (gmap string loc)
}.

(** The calls a method issues on its collaborators, in order, and the
    assignments to [self.alpha]. *)
Inductive call : Type :=
  | Call_iter_get_norm
  | Call_add_scal_vec (self : loc) (a : Qc) (other : loc)
  | Call_solve_subsystems
  | Set_alpha (a : Qc).

(** [alpha] is [None] until [self.alpha] has been assigned. *)
Record world : Type := mkWorld {
  heap : gmap loc vec;
  options : gmap string value;
  alpha : option Qc;
  _system : System;
  log : list call
}.

Definition with_heap (h : gmap loc vec) (w : world) : world :=
  mkWorld h (options w) (alpha w) (_system w) (log w).

Definition with_alpha (a : Qc) (w : world) : world :=
  mkWorld (heap w) (options w) (Some a) (_system w) (log w).

Definition with_options (o : gmap string value) (w : world) : world :=
  mkWorld (heap w) o (alpha w) (_system w) (log w).

Definition with_call (c : call) (w : world) : world :=
  mkWorld (heap w) (options w) (alpha w) (_system w) (log w ++ [c]).

(** ** The monad of methods *)

Definition M (A : Type) : Type := world -> result (A * world).

Definition ret {A} (a : A) : M A := fun w => Ok (a, w).

Definition bind {A B} (m : M A) (k : A -> M B) : M B :=
  fun w => match m w with
           | Ok (a, w') => k a w'
           | Raise e => Raise e
           end.

Definition raise {A} (e : exn) : M A := fun _ => Raise e.

Notation "'let*' x ':=' m 'in' k" := (bind m (fun x => k))
  (at level 10, x pattern, m at level 100, k at level 200).

Definition tell (c : call) : M unit := fun w => Ok (tt, with_call c w).

(** [self._system] *)
Definition get_system : M System := fun w => Ok (_system w, w).

(** [self.options[key]] *)
Definition options_getitem (key : string) : M value :=
  fun w => match options w !! key with
           | Some v => Ok (v, w)
           | None => Raise (KeyError key)
           end.

(** [self.alpha] *)
Definition getattr_alpha : M Qc :=
  fun w => match alpha w with
           | Some a => Ok (a, w)
           | None => Raise (AttributeError "alpha")
           end.

(** [self.alpha = a] *)
Definition setattr_alpha (a : Qc) : M unit :=
  fun w => Ok (tt, with_call (Set_alpha a) (with_alpha a w)).

(** [system._vectors[kind][name]] *)
Definition vectors_getitem (system : System) (kind name : string) : M loc :=
  match _vectors system !! kind with
  | None => raise (KeyError kind)
  | Some d => match d !! name with
              | None => raise (KeyError name)
              | Some l => ret l
              end
  end.

(** ** Vectors: the object level *)

Definition vec_read (l : loc) : M vec :=
  fun w => match heap w !! l with
           | Some v => Ok (v, w)
           | None => Raise (InvalidReference l)
           end.

Definition vec_write (l : loc) (v : vec) : M unit :=
  fun w => Ok (tt, with_heap (<[l := v]> (heap w)) w).

(** Modelled from the spec: [self.add_scal_vec(a, other)] is the in-place
    accumulation [self += a * other] of section 4.1, on objects: it reads
    both operands and overwrites [self]. *)
Definition add_scal_vec (self : loc) (a : Qc) (other : loc) : M unit :=
  let* x := vec_read self in
  let* y := vec_read other in
  let* _ := tell (Call_add_scal_vec self a other) in
  vec_write self (Vector.add_scal_vec a x y).

(** Modelled from the spec: [clone()] returns an independent vector with
    identical layout and values, that is a new object. *)
Definition _clone (self : loc) : M loc :=
  let* x := vec_read self in
  fun w => let l := fresh (dom (heap w)) in
           Ok (l, with_heap (<[l := x]> (heap w)) w).

(** Modelled from the spec: [self.set_const(value)], in place. *)
Definition set_const (self : loc) (value : Qc) : M unit :=
  let* x := vec_read self in
  vec_write self (Vector.set_const value x).

(** Modelled from the spec: [self.dot(other)]; it changes nothing. *)
Definition dot (self other : loc) : M Qc :=
  let* x := vec_read self in
  let* y := vec_read other in
  ret (Vector.dot x y).

(** ** The options registry *)

(** Modelled from the spec: the registry class is not among the sources.
    Section 3 has a set of named, defaulted settings: an assignment
    [opt[key] = v] and a declaration [opt.declare(name, v)] both bind the
    name to the value. *)
Definition options_setitem (key : string) (v : value) : M unit :=
  fun w => Ok (tt, with_options (<[key := v]> (options w)) w).

Definition options_declare (name : string) (v : value) : M unit :=
  fun w => Ok (tt, with_options (<[name := v]> (options w)) w).

Definition half : Qc := Q2Qc (1 # 2).
Definition nine_tenths : Qc := Q2Qc (9 # 10).

(** ** The solver *)

Module BacktrackingLineSearch.

(** [__init__], run on the object as the base class initialiser (which is
    not among the sources) has left it. *)
Definition __init__ : M unit :=
  let* _ := options_setitem "maxiter" (VInt 5) in
  let* _ := options_declare "solve_subsystems" (VBool true) in
  let* _ := options_declare "rho" (VFloat half) in
  let* _ := options_declare "alpha" (VFloat 1) in
  options_declare "rtol" (VFloat nine_tenths).

Section Methods.

(** Modelled from the spec: [_iter_get_norm] is inherited from the base
    solver, which is not among the sources.  Section 6 gives the
    collaborator's [residual_norm()]: it re-evaluates the residual at
    the current contents of the system's vectors and returns its norm.
    It is a measurement: it changes neither the vectors nor the solver. *)
Variable _iter_get_norm : System -> gmap loc vec -> Qc.

Definition iter_get_norm : M Qc :=
  fun w => Ok (_iter_get_norm (_system w) (heap w),
               with_call Call_iter_get_norm w).

Definition _iter_initialize : M (Qc * Qc) :=
  let* system := get_system in
  let* a := options_getitem "alpha" in
  let* _ := setattr_alpha (num a) in
  let u := _outputs system in
  let* du := vectors_getitem system "output" "" in
  let* norm0 := iter_get_norm in
  let norm0 := if decide (norm0 = 0) then 1 else norm0 in
  let* a := getattr_alpha in
  let* _ := add_scal_vec u a du in
  let* norm := iter_get_norm in
  ret (norm0, norm).

Definition _iter_execute : M unit :=
  let* system := get_system in
  let u := _outputs system in
  let* du := vectors_getitem system "output" "" in
  let* a := getattr_alpha in
  let* _ := add_scal_vec u (- a) du in
  let* a := getattr_alpha in
  let* rho := options_getitem "rho" in
  let* _ := setattr_alpha (a * num rho) in
  let* a := getattr_alpha in
  add_scal_vec u a du.

(** *** The base loop *)

Inductive status : Type :=
  | CONVERGED
  | FAILED_MAXITER.

(** Modelled from the spec: the base solver's loop is not among the
    sources.  Section 4.2: a run is converged when
    [norm <= norm0 * rtol] or an absolute floor is reached. *)
Definition is_converged (norm0 norm : Qc) : M bool :=
  let* rtol := options_getitem "rtol" in
  let* atol := options_getitem "atol" in
  ret (bool_decide (norm <= norm0 * num rtol)
       || bool_decide (norm <= num atol)).

(** Modelled from the spec: while the iteration count is below
    [maxiter] and the run is not converged, invoke the single-step
    refinement, re-measure the norm and re-test.  [budget] is what is
    left of [maxiter]; the result carries the iteration count and the
    last norm.  (The stop on a not-a-number norm has no counterpart in
    exact arithmetic.) *)
Fixpoint iterate (budget : nat) (norm0 norm : Qc) (iter_count : nat)
  : M (status * nat * Qc) :=
  let* c := is_converged norm0 norm in
  if c : bool then ret (CONVERGED, iter_count, norm)
  else match budget with
       | O => ret (FAILED_MAXITER, iter_count, norm)
       | S budget' =>
           let* _ := _iter_execute in
           let* norm := iter_get_norm in
           iterate budget' norm0 norm (S iter_count)
       end.

(** Modelled from the spec: the strategy's initialiser runs once and
    returns [(norm0, norm)]; then the loop. *)
Definition solve : M (status * nat * Qc) :=
  let* maxiter := options_getitem "maxiter" in
  match maxiter with
  | VInt n =>
      let* norms := _iter_initialize in
      iterate (Z.to_nat n) norms.1 norms.2 0
  | _ => raise (TypeError "maxiter")
  end.

End Methods.

End BacktrackingLineSearch.

(** ** The vector test (openmdao/vectors/tests/test_vector.py) *)

Module TestVector.

(** The body of [test_dot] after the problem is set up: [outputs] is
    [p.model._outputs]; the result is the value handed to [assertEqual]. *)
Definition dot_of_filled_clone (outputs : loc) (c : Qc) : M Qc :=
  let* new_vec := _clone outputs in
  let* _ := set_const new_vec c in
  dot new_vec outputs.

(** The fixture: two outputs, [v1 = 1.0] and [v2 = 2.0]. *)
Definition fixture : world :=
  mkWorld {[ 0%nat := [1; 1 + 1] ]} ∅ None (mkSystem 0%nat ∅) [].

Definition test_dot : M Qc := dot_of_filled_clone 0%nat (1 + 1 + 1).

End TestVector.

(** ** Vocabulary of the statements *)

(** The object [system._outputs] and, when the dictionary has it, the object
    [system._vectors['output']['']]. *)
Definition u_loc (w : world) : loc := _outputs (_system w).

Definition du_loc (w : world) : option loc :=
  match _vectors (_system w) !! "output" with
  | Some d => d !! ""
  | None => None
  end.

(** The solver is attached to a system whose outputs vector holds [u] and
    whose update vector is the object [ldu], holding [du]. *)
Record attached (w : world) (ldu : loc) (u du : vec) : Prop := mkAttached {
  att_du_loc : du_loc w = Some ldu;
  att_u : heap w !! u_loc w = Some u;
  att_du : heap w !! ldu = Some du
}.

(** [k] invocations of [_iter_execute] in a row. *)
Fixpoint refine (k : nat) : M unit :=
  match k with
  | O => ret tt
  | S k' => let* _ := refine k' in BacktrackingLineSearch._iter_execute
  end.

(** The step scale the solver holds after [m], if [m] returns. *)
Definition alpha_after {A} (m : M A) (w : world) : option Qc :=
  match m w with
  | Ok (_, w') => alpha w'
  | Raise _ => None
  end.

(** The [j]-th trial point on the line from [u0] along [du]. *)
Definition trial_point (a0 rho : Qc) (u0 du : vec) (j : nat) : vec :=
  Vector.add_scal_vec (a0 * rho ^ j) u0 du.

(** The residual norm the system would report with [v] as its outputs. *)
Definition norm_at (get_norm : System -> gmap loc vec -> Qc)
    (w0 : world) (v : vec) : Qc :=
  get_norm (_system w0) (<[u_loc w0 := v]> (heap w0)).

(** The residual norm at the [j]-th trial point. *)
Definition trial_norm (get_norm : System -> gmap loc vec -> Qc) (w0 : world)
    (a0 rho : Qc) (u0 du : vec) (j : nat) : Qc :=
  norm_at get_norm w0 (trial_point a0 rho u0 du j).

(** The value of the base loop's convergence test. *)
Definition converged_at (rtol atol norm0 norm : Qc) : bool :=
  bool_decide (norm <= norm0 * rtol) || bool_decide (norm <= atol).

(** The initial norm as [_iter_initialize] returns it. *)
Definition guarded (norm0 : Qc) : Qc :=
  if decide (norm0 = 0) then 1 else norm0.

(** The step scale the solver holds after [_iter_initialize] and [k]
    invocations of [_iter_execute]. *)
Definition scale_after (get_norm : System -> gmap loc vec -> Qc) (k : nat)
    (w : world) : option Qc :=
  alpha_after
    (let* _ := BacktrackingLineSearch._iter_initialize get_norm in refine k)
    w.

(** The world [w] is [w0] after a trial step of scale [a] from [u0] along
    [du]: the outputs vector holds the trial point, the solver holds [a],
    and nothing else differs but the log. *)
Record on_trial (w0 : world) (u0 du : vec) (a : Qc) (w : world) : Prop :=
  mkOnTrial {
    trial_heap :
      heap w = <[u_loc w0 := Vector.add_scal_vec a u0 du]> (heap w0);
    trial_options : options w = options w0;
    trial_alpha : alpha w = Some a;
    trial_system : _system w = _system w0
  }.

(** ** A concrete system *)

Module Sample.

Definition Qc_abs (x : Qc) : Qc := if decide (0 <= x) then x else - x.

(** Residual [1 - x/20] in each output; its norm is the sum of the
    absolute values. *)
Definition get_norm (s : System) (h : gmap loc vec) : Qc :=
  match h !! _outputs s with
  | Some u => foldr Qcplus 0 ((fun x => Qc_abs (1 - x * Q2Qc (1 # 20))) <$> u)
  | None => 0
  end.

Definition system : System :=
  mkSystem 0%nat {[ "output" := {[ "" := 1%nat ]} ]}.

Definition u0 : vec := [0; 0].
Definition du : vec := [1; 1].

(** Outputs [u0], update [du]; the options are the constructor's, with
    the base solver's absolute tolerance at zero; [alpha] is not set yet. *)
Definition start : world :=
  mkWorld {[ 0%nat := u0; 1%nat := du ]}
          (<["rtol" := VFloat nine_tenths]>
             (<["alpha" := VFloat 1]>
                (<["rho" := VFloat half]>
                   (<["solve_subsystems" := VBool true]>
                      (<["maxiter" := VInt 5]>
                         {[ "atol" := VFloat 0 ]})))))
          None system [].

(** The same with [alpha] assigned, as after a first trial step. *)
Definition stepped : world :=
  mkWorld {[ 0%nat := [1; 1]; 1%nat := du ]} (options start) (Some 1)
          system [].

(** Options whose initial step scale is negative. *)
Definition backwards : world :=
  with_options (<["alpha" := VFloat (- (1))]> (options start)) start.

End Sample.

(** ** Vocabulary of the further statements *)

(** The outcome [r] with the options [o] put in place of its own. *)
Definition carrying {A} (o : gmap string value) (r : result (A * world))
  : result (A * world) :=
  match r with
  | Ok (a, w') => Ok (a, with_options o w')
  | Raise e => Raise e
  end.

(** ** Debugging functions (openmdao/devtools/debug.py) *)

Module Debug.

(** Streams are named; [stdout] is [sys.stdout].  What has been written to a
    stream is kept as the list of the strings written, one per call, in
    order; its text is their concatenation. *)
Definition chan : Type := nat.
Definition stdout : chan := 0%nat.

Definition written (o : gmap chan (list string)) (c : chan) : list string :=
  default [] (o !! c).

Definition write (c : chan) (s : string) (o : gmap chan (list string))
  : gmap chan (list string) :=
  <[c := (written o c ++ [s])%list]> o.

Definition text_of (chunks : list string) : string :=
  foldr String.append "" chunks.

(** The line feed. *)
Definition newline : string := String (Ascii.ascii_of_nat 10) "".

(** [MPI.COMM_WORLD], when MPI is active. *)
Record comm : Type := mkComm {
  comm_rank : nat;
  comm_size : nat
}.

Inductive exn : Type :=
  | SystemExit
  | RuntimeError (msg : string)
  | KeyError (key : string)
  | IndexError
  | ValueError (msg : string).

(** *** [_NoColor] and [_get_color_printer] *)

(** A colour object ([Fore], [Back], [Style]) maps attribute names to
    escape codes. *)
Definition palette : Type := string -> string.

(** [_NoColor.__getattr__] *)
Definition _NoColor : palette := fun _ => "".

Record colours : Type := mkColours {
  Fore : palette;
  Back : palette;
  Style : palette
}.

(** The two closures [_get_color_printer] can return; the loud one holds
    the stream and the [Style] object it was built with. *)
Inductive printer : Type :=
  | Silent
  | Loud (stream : chan) (style : palette).

(** [color_print(s, color, end)]: three calls of [print].  The last one
    names no file, so it goes to [sys.stdout].  The silent closure takes any
    keywords and does nothing. *)
Definition color_print (p : printer) (s color end_ : string)
    (o : gmap chan (list string)) : gmap chan (list string) :=
  match p with
  | Silent => o
  | Loud stream style =>
      let o := write stream (color +:+ s) o in
      let o := write stream (style "RESET_ALL") o in
      write stdout end_ o
  end.

(** [_get_color_printer(stream, colors, rank)].  [colorama] holds the
    module's three colour objects when it can be imported (its [init] is
    taken to write nothing); [mpi] is [MPI.COMM_WORLD] when MPI is active.
    The result is what has been written, with either the exception raised
    or the tuple returned. *)
Definition _get_color_printer (colorama : option colours) (mpi : option comm)
    (stream : chan) (colors : bool) (rank : Z) (o : gmap chan (list string))
  : gmap chan (list string) * (exn + printer * colours) :=
  let c := match colorama with
           | Some c => c
           | None => mkColours _NoColor _NoColor _NoColor
           end in
  let c := if colors then c else mkColours _NoColor _NoColor _NoColor in
  match mpi with
  | Some world =>
      if bool_decide (Z.of_nat (comm_rank world) ≠ rank) then
        if bool_decide (Z.of_nat (comm_size world) <= rank)%Z then
          let o := if bool_decide (comm_rank world = 0%nat)
                   then write stdout
                          ("Specified rank (" +:+ pretty rank
                           +:+ ") is outside of the valid range (0-"
                           +:+ pretty (Z.of_nat (comm_size world) - 1)%Z
                           +:+ ")." +:+ newline) o
                   else o in
          (o, inl SystemExit)
        else (o, inr (Silent, c))
      else (o, inr (Loud stream (Style c), c))
  | None => (o, inr (Loud stream (Style c), c))
  end.

(** A call of the printer as [tree] makes them: the colour is a sum of
    attributes of the colour objects that came with the printer. *)
Inductive colour_of : Type :=
  | OfFore (name : string)
  | OfBack (name : string)
  | OfStyle (name : string).

Record cprint_call : Type := mkCall {
  call_text : string;
  call_color : list colour_of;
  call_end : string
}.

Definition colour_code (c : colours) (x : colour_of) : string :=
  match x with
  | OfFore n => Fore c n
  | OfBack n => Back c n
  | OfStyle n => Style c n
  end.

Definition colour_sum (c : colours) (xs : list colour_of) : string :=
  foldr (fun x acc => colour_code c x +:+ acc) "" xs.

Definition cprint_all (p : printer) (c : colours) (calls : list cprint_call)
    (o : gmap chan (list string)) : gmap chan (list string) :=
  foldl (fun o k => color_print p (call_text k)
                      (colour_sum c (call_color k)) (call_end k) o)
        o calls.

(** *** [dump_dist_idxs] *)

(** The attributes of a group that [dump_dist_idxs] reads.  A size array is
    indexed by rank, then by variable. *)
Record Group : Type := mkGroup {
  _var_sizes : gmap string (gmap string (list (list Z)));
  _var_allprocs_abs_names : gmap string (list string);
  _var_relevant_names : gmap string (gmap string (list string));
  _var_allprocs_abs2idx : gmap string (gmap string nat);
  group_comm_size : nat
}.

Definition getitem {V} (d : gmap string V) (key : string) : exn + V :=
  match d !! key with
  | Some v => inr v
  | None => inl (KeyError key)
  end.

Definition and_then {A B} (m : exn + A) (k : A -> exn + B) : exn + B :=
  match m with
  | inl e => inl e
  | inr a => k a
  end.

Notation "'let!' x ':=' m 'in' k" := (and_then m (fun x => k))
  (at level 10, x pattern, m at level 100, k at level 200).

(** A [for] loop whose body may raise. *)
Fixpoint for_each {A S} (body : S -> A -> exn + S) (s : S) (l : list A)
  : exn + S :=
  match l with
  | [] => inr s
  | x :: l' => let! s' := body s x in for_each body s' l'
  end.

(** The locals [data], [nwid], [iwid] and [total] of [_get_data]. *)
Record listing : Type := mkListing {
  data : list (string * string);
  nwid : nat;
  iwid : nat;
  total : Z
}.

(** The body of the inner loop of [_get_data]. *)
Definition list_variable (sizes : list (list Z)) (abs2idx : gmap string nat)
    (rank : nat) (acc : listing) (vname : string) : exn + listing :=
  match abs2idx !! vname with
  | None => inr acc
  | Some ivar =>
      match sizes !! rank ≫= (.!! ivar) with
      | None => inl IndexError
      | Some sz =>
          if bool_decide (0 < sz)%Z then
            let idx := pretty (total acc) in
            inr (mkListing (data acc ++ [(vname, idx)])%list
                           (nwid acc `max` String.length vname)
                           (iwid acc `max` String.length idx)
                           (total acc + sz))
          else inr acc
      end
  end.

(** [_get_data(g, type_)], for the vector [vec_name]. *)
Definition _get_data (vec_name : string) (g : Group) (type_ : string)
  : exn + list (string * string) * nat * nat :=
  let! by_type := getitem (_var_sizes g) vec_name in
  let! sizes := getitem by_type type_ in
  let vnames := _var_allprocs_abs_names g in
  let! relevant_by_type := getitem (_var_relevant_names g) vec_name in
  let! relevant := getitem relevant_by_type type_ in
  let! abs2idx := getitem (_var_allprocs_abs2idx g) vec_name in
  let! acc :=
    for_each (fun acc rank =>
                let! names := getitem vnames type_ in
                for_each (list_variable sizes abs2idx rank) acc names)
             (mkListing [] 0 0 0) (seq 0 (group_comm_size g)) in
  inr (data acc, nwid acc, iwid acc).

(** [itertools.zip_longest(l, k, fillvalue=fill)] with one fill value. *)
Fixpoint zip_longest {A} (fill : A) (l k : list A) : list (A * A) :=
  match l with
  | [] => (fun y => (fill, y)) <$> k
  | x :: l' =>
      match k with
      | [] => (x, fill) :: ((fun x => (x, fill)) <$> l')
      | y :: k' => (x, y) :: zip_longest fill l' k'
      end
  end.

Definition spaces (n : nat) : string :=
  Nat.iter n (String (Ascii.ascii_of_nat 32)) "".

(** ["{:<w}"] and ["{:>w}"] on a string: pad to the width [w], never cut. *)
Definition ljust (w : nat) (s : string) : string :=
  s +:+ spaces (w - String.length s).

Definition rjust (w : nat) (s : string) : string :=
  spaces (w - String.length s) +:+ s.

(** The template of [_dump] applied to one row. *)
Definition format_row (wid0 wid1 wid2 wid3 : nat)
    (d : string * string * string * string) : string :=
  let '(d0, d1, d2, d3) := d in
  ljust wid0 d0 +:+ " " +:+ rjust wid1 d1 +:+ "     "
  +:+ rjust wid2 d2 +:+ " " +:+ ljust wid3 d3 +:+ newline.

(** [_dump(g, stream)] *)
Definition _dump (vec_name : string) (g : Group) (stream : chan)
    (o : gmap chan (list string)) : exn + gmap chan (list string) :=
  let! p := _get_data vec_name g "input" in
  let! u := _get_data vec_name g "output" in
  let '(pdata, pnwid, piwid) := p in
  let '(udata, unwid, uiwid) := u in
  let rows := (fun up : (string * string) * (string * string) =>
                 (up.1.1, up.1.2, up.2.2, up.2.1))
              <$> zip_longest ("", "") udata pdata in
  let o := foldl (fun o d =>
                    write stream (format_row unwid uiwid piwid pnwid d) o)
                 o (reverse rows) in
  inr (write stream (newline +:+ newline) o).

(** [dump_dist_idxs(problem, vec_name, stream)]; [model] is
    [problem.model]. *)
Definition dump_dist_idxs (mpi : option comm) (model : Group)
    (vec_name : string) (stream : chan) (o : gmap chan (list string))
  : exn + gmap chan (list string) :=
  match mpi with
  | Some world =>
      if bool_decide (comm_rank world = 0%nat)
      then _dump vec_name model stream o
      else inr o
  | None => _dump vec_name model stream o
  end.

(** *** [compare_jacs] *)

(** An array is kept flattened, in the order of [flatten]; its shape is its
    length.  The two arrays of one key are taken to have the same shape (no
    broadcasting); entries are exact rationals. *)
Definition fabs (x : Qc) : Qc := if decide (0 <= x) then x else - x.

(** [np.argmax] with the value there: the first index of the largest entry;
    [None] on an empty array, where numpy raises. *)
Fixpoint argmax (l : list Qc) : option (nat * Qc) :=
  match l with
  | [] => None
  | x :: l' =>
      match argmax l' with
      | None => Some (0%nat, x)
      | Some (i, m) =>
          if bool_decide (m <= x) then Some (0%nat, x) else Some (S i, m)
      end
  end.

(** [diff] after [diff[rel_idxs] /= absref[rel_idxs]]. *)
Definition scaled_diff (rel_trigger : Qc) (subJ subJref : list Qc)
  : list Qc :=
  zip_with (fun d a => if bool_decide (rel_trigger < a) then d / a else d)
           (fabs <$> zip_with Qcminus subJ subJref)
           (fabs <$> subJref).

(** The body of the loop once [subJ] and [subJref] are chosen: the largest
    difference and whether it is relative. *)
Definition compare_arrays (rel_trigger : Qc) (subJ subJref : list Qc)
  : exn + Qc * string :=
  match argmax (scaled_diff rel_trigger subJ subJref) with
  | None => inl (ValueError "attempt to get argmax of an empty sequence")
  | Some (max_diff_idx, max_diff) =>
      match (fabs <$> subJref) !! max_diff_idx with
      | Some a =>
          if bool_decide (rel_trigger < a)
          then inr (max_diff, "rel")
          else inr (max_diff, "abs")
      | None => inl IndexError
      end
  end.

Section CompareJacs.

Context `{Countable K}.

(** The two arrays compared for [key]: a missing one is zeros of the shape
    of the other. *)
Definition operands (Jref J : gmap K (list Qc)) (key : K)
  : list Qc * list Qc :=
  let subJ := match J !! key with
              | Some a => a
              | None => replicate (length (default [] (Jref !! key))) 0
              end in
  let subJref := match Jref !! key with
                 | Some a => a
                 | None => replicate (length (default [] (J !! key))) 0
                 end in
  (subJ, subJref).

(** [compare_jacs(Jref, J, rel_trigger)].  Python leaves the order in which
    a set is walked open; here the keys are walked in the order of
    [elements]. *)
Definition compare_jacs (Jref J : gmap K (list Qc)) (rel_trigger : Qc)
  : exn + list (K * Qc * string) :=
  for_each (fun results key =>
              let '(subJ, subJref) := operands Jref J key in
              let! r := compare_arrays rel_trigger subJ subJref in
              inr (results ++ [(key, r.1, r.2)])%list)
           [] (elements (dom J ∪ dom Jref)).

End CompareJacs.

(** *** [trace_mpi] *)

(** [needle in hay] on strings. *)
Fixpoint contains (needle hay : string) : bool :=
  String.prefix needle hay
  || match hay with
     | EmptyString => false
     | String _ rest => contains needle rest
     end.

(** What the callback reads of [frame.f_locals['self']]: [msginfo] and
    [comm.size], each [None] when reading it raises. *)
Record self_info : Type := mkSelf {
  msginfo : option string;
  self_comm_size : option Z
}.

(** What the callback reads of a frame; [f_self] is [None] when the frame
    has no local [self]. *)
Record frame : Type := mkFrame {
  co_filename : string;
  co_name : string;
  co_firstlineno : Z;
  f_self : option self_info
}.

(** What [_print_c_func] reads of the C function [arg]: [str(arg)] and the
    names of its class, of the module of the class, and its own. *)
Record c_function : Type := mkCFunction {
  c_str : string;
  c_module : string;
  c_class : string;
  c_name : string
}.

(** The events a profile function receives. *)
Inductive event : Type :=
  | call (f : frame)
  | return_ (f : frame)
  | c_call (f : frame) (arg : c_function)
  | c_return (f : frame) (arg : c_function)
  | c_exception (f : frame) (arg : c_function).

(** The state the callback closes over: [stack], kept with its top first
    (Python's [stack[-1]] is the head, [append] adds a head, [pop] removes
    it), each entry a name and a count; and the lines printed to the trace
    file. *)
Record tracer : Type := mkTracer {
  stack : list (string * Z);
  outfile : list string
}.

(** [print] to the trace file: the arguments joined by a space, then a
    line feed. *)
Definition print_line (args : list string) (t : tracer) : tracer :=
  mkTracer (stack t) (outfile t ++ [String.concat " " args +:+ newline])%list.

(** ['   ' * len(stack)] *)
Definition indent (t : tracer) : string :=
  Nat.iter (length (stack t)) (String.append "   ") "".

Definition where_ (f : frame) : string :=
  co_filename f +:+ ":" +:+ pretty (co_firstlineno f).

(** [pname] and [commsize] as the callback finds them. *)
Definition pname_of (f : frame) : option string := f_self f ≫= msginfo.

Definition commsize_of (f : frame) : string :=
  match f_self f ≫= self_comm_size with
  | Some n => pretty n
  | None => ""
  end.

(** The branch of the callback for the event ['call']. *)
Definition on_call (skip : list string) (f : frame) (t : tracer) : tracer :=
  if contains "openmdao" (co_filename f) then
    if bool_decide (co_name f ∈ skip) then t
    else
      let t :=
        match pname_of f with
        | Some pname =>
            match stack t with
            | (top, n) :: rest =>
                if bool_decide (pname ≠ top) then
                  let t := mkTracer ((pname, 1%Z) :: stack t) (outfile t) in
                  print_line [indent t; commsize_of f; pname] t
                else mkTracer ((top, (n + 1)%Z) :: rest) (outfile t)
            | [] =>
                let t := mkTracer ((pname, 1%Z) :: stack t) (outfile t) in
                print_line [indent t; commsize_of f; pname] t
            end
        | None => t
        end in
      print_line [indent t; "-->"; co_name f; where_ f] t
  else t.

(** The branch for the event ['return']. *)
Definition on_return (skip : list string) (f : frame) (t : tracer) : tracer :=
  if contains "openmdao" (co_filename f) then
    if bool_decide (co_name f ∈ skip) then t
    else
      let t := print_line [indent t; "<--"; co_name f; where_ f] t in
      match pname_of f with
      | Some pname =>
          match stack t with
          | (top, n) :: rest =>
              if bool_decide (pname = top) then
                if bool_decide (n - 1 < 1)%Z then
                  let t := mkTracer rest (outfile t) in
                  match stack t with
                  | (below, _) :: _ =>
                      print_line [indent t; commsize_of f; below] t
                  | [] => t
                  end
                else mkTracer ((top, (n - 1)%Z) :: rest) (outfile t)
              else t
          | [] => t
          end
      | None => t
      end
  else t.

(** [_print_c_func(frame, arg, typestr)] *)
Definition _print_c_func (f : frame) (arg : c_function) (typestr : string)
    (t : tracer) : tracer :=
  if contains "mpi4py" (c_str arg) || contains "petsc4py" (c_str arg) then
    print_line [indent t; typestr;
                c_module arg +:+ "." +:+ c_class arg +:+ "." +:+ c_name arg;
                where_ f] t
  else t.

(** [_mpi_trace_callback(frame, event, arg)] *)
Definition _mpi_trace_callback (skip : list string) (ev : event) (t : tracer)
  : tracer :=
  match ev with
  | call f => on_call skip f t
  | return_ f => on_return skip f t
  | c_call f arg => _print_c_func f arg "(c) -->" t
  | c_return f arg => _print_c_func f arg "(c) <--" t
  | c_exception f arg => _print_c_func f arg "(c_exception)" t
  end.

(** [trace_mpi(fname, skip, flush)] up to the installation of the callback:
    the name of the file it opens and the tracer it starts with.
    [profiling] tells whether [sys.getprofile()] is not [None]. *)
Definition trace_mpi (mpi : option comm) (profiling : bool) (fname : string)
  : exn + string * tracer :=
  match mpi with
  | None => inl (RuntimeError "MPI is not active.  Trace aborted.")
  | Some world =>
      if profiling
      then inl (RuntimeError "another profile function is already active.")
      else inr (fname +:+ "." +:+ pretty (comm_rank world), mkTracer [] [])
  end.

(** The tracer after the events [evs], in order. *)
Definition trace (skip : list string) (evs : list event) (t : tracer)
  : tracer :=
  foldl (fun t ev => _mpi_trace_callback skip ev t) t evs.

(** Events that nest: every call is closed by the return of its frame,
    after the events of what it called. *)
Inductive nested : list event -> Prop :=
  | nested_nil : nested []
  | nested_c_call f arg evs : nested evs -> nested (c_call f arg :: evs)
  | nested_c_return f arg evs : nested evs -> nested (c_return f arg :: evs)
  | nested_c_exception f arg evs :
      nested evs -> nested (c_exception f arg :: evs)
  | nested_call f inner rest :
      nested inner -> nested rest ->
      nested (call f :: inner ++ return_ f :: rest)%list.

(** What the stack keeps true: every count is at least 1 and neighbours
    have different names. *)
Fixpoint stack_ok (s : list (string * Z)) : Prop :=
  match s with
  | [] => True
  | (name, n) :: rest =>
      (1 <= n)%Z
      ∧ match rest with
        | (below, _) :: _ => name ≠ below
        | [] => True
        end
      ∧ stack_ok rest
  end.

(** What the listing of [_get_data] keeps true, [offs] being the offsets
    it has listed, as numbers: the strings listed are their decimal forms,
    they start at 0 and increase, [total] is above them all, and the two
    widths bound the lengths of the names and of the offsets. *)
Record listing_ok (acc : listing) (offs : list Z) : Prop := mkListingOk {
  ok_strings : (data acc).*2 = pretty <$> offs;
  ok_sorted : StronglySorted Z.lt offs;
  ok_below : Forall (fun x => (0 <= x < total acc)%Z) offs;
  ok_first : match offs with [] => total acc = 0%Z | x :: _ => x = 0%Z end;
  ok_widths :
    Forall (fun d => (String.length d.1 <= nwid acc)%nat
                     ∧ (String.length d.2 <= iwid acc)%nat) (data acc)
}.

End Debug.

(** ** A concrete model for the debugging functions *)

Module DebugSample.

(** Two processes, two outputs and two inputs. *)
Definition model : Debug.Group :=
  Debug.mkGroup
    {[ "nonlinear" := {[ "output" := [[3; 2]; [0; 4]]%Z;
                         "input" := [[1; 0]; [2; 2]]%Z ]} ]}
    {[ "output" := ["C1.y"; "C2.y"]; "input" := ["C1.x"; "C2.x"] ]}
    {[ "nonlinear" := {[ "output" := ["C1.y"; "C2.y"];
                         "input" := ["C1.x"; "C2.x"] ]} ]}
    {[ "nonlinear" := {[ "C1.y" := 0%nat; "C2.y" := 1%nat;
                         "C1.x" := 0%nat; "C2.x" := 1%nat ]} ]}
    2.

Definition calls : list Debug.cprint_call :=
  [Debug.mkCall "Group " [Debug.OfFore "GREEN"; Debug.OfStyle "BRIGHT"] "";
   Debug.mkCall "model" [] Debug.newline].

(** A reference Jacobian and one that lacks a block, keyed by the pair of
    names. *)
Definition Jref : gmap (string * string) (list Qc) :=
  {[ ("y", "x") := [1 + 1; 1 + 1 + 1 + 1]; ("z", "x") := [Q2Qc 100] ]}.

Definition J : gmap (string * string) (list Qc) :=
  {[ ("y", "x") := [1 + 1; 1 + 1 + 1 + 1 + 1] ]}.

Definition results : list (string * string * Qc * string) :=
  Eval vm_compute in
    match Debug.compare_jacs Jref J 1 with
    | inr r => r
    | inl _ => []
    end.

Definition same_results : list (string * string * Qc * string) :=
  Eval vm_compute in
    match Debug.compare_jacs Jref Jref 1 with
    | inr r => r
    | inl _ => []
    end.

(** A method of a group calls an MPI function and returns. *)
Definition solve_frame : Debug.frame :=
  Debug.mkFrame "openmdao/core/group.py" "_solve_nonlinear" 120
    (Some (Debug.mkSelf (Some "Group (sub)") (Some 2%Z))).

Definition allreduce : Debug.c_function :=
  Debug.mkCFunction "<built-in method Allreduce of mpi4py.MPI.Intracomm>"
    "mpi4py.MPI" "Intracomm" "Allreduce".

Definition events : list Debug.event :=
  [Debug.call solve_frame;
   Debug.call solve_frame;
   Debug.c_call solve_frame allreduce;
   Debug.c_return solve_frame allreduce;
   Debug.return_ solve_frame;
   Debug.return_ solve_frame].

End DebugSample.

(** * Properties *)

Import BacktrackingLineSearch.

(** ** The model on concrete inputs *)

Example add_scal_vec_sample :
  this <$> Vector.add_scal_vec half [1; 1 + 1] [1 + 1; 1] = [2; 5 # 2]%Q.
Proof. reflexivity. Qed.

Example test_dot_sample :
  match TestVector.test_dot TestVector.fixture with
  | Ok (q, w') => Some (this q, heap w' !! 0%nat)
  | Raise _ => None
  end = Some (9%Q, Some [1; 1 + 1]).
Proof. reflexivity. Qed.

(** The sample world is what the constructor makes of a base solver whose
    only option is a zero absolute tolerance. *)
Example start_is_constructed :
  __init__ (with_options {[ "atol" := VFloat 0 ]} Sample.start)
  = Ok (tt, Sample.start).
Proof. reflexivity. Qed.

(** A system whose residual is already zero: the norm returned first is 1. *)
Example iter_initialize_zero_norm :
  ∃ norm w',
    _iter_initialize (fun _ _ => 0) Sample.start = Ok ((1, norm), w').
Proof. eexists. eexists. vm_compute. reflexivity. Qed.

(** The run of the loop on the sample system: five refinements, no
    acceptance, the scale ending at 1/32. *)
Example solve_sample :
  match solve Sample.get_norm Sample.start with
  | Ok ((st, k, n), w') => Some (st, k, this n, this <$> alpha w')
  | Raise _ => None
  end = Some (FAILED_MAXITER, 5%nat, (639 # 320)%Q, Some (1 # 32)%Q).
Proof. vm_compute. reflexivity. Qed.

(** ** Vector algebra *)

Lemma add_scal_vec_length a (u du : vec) :
  length du = length u -> length (Vector.add_scal_vec a u du) = length u.
Proof.
  intros Hlen. unfold Vector.add_scal_vec.
  rewrite length_zip_with. lia.
Qed.

(** Two accumulations of the same vector amount to one. *)
Lemma add_scal_vec_twice a b (u du : vec) :
  Vector.add_scal_vec b (Vector.add_scal_vec a u du) du
  = Vector.add_scal_vec (a + b) u du.
Proof.
  unfold Vector.add_scal_vec. revert du.
  induction u as [|x u IH]; intros [|d du]; simpl; try reflexivity.
  f_equal; [ring | apply IH].
Qed.

Lemma add_scal_vec_zero (u du : vec) :
  length du = length u -> Vector.add_scal_vec 0 u du = u.
Proof.
  unfold Vector.add_scal_vec. revert du.
  induction u as [|x u IH]; intros [|d du] Hlen; simpl in *;
    try reflexivity; try discriminate.
  f_equal; [ring | apply IH; congruence].
Qed.

Lemma add_scal_vec_undo a (u du : vec) :
  length du = length u ->
  Vector.add_scal_vec a (Vector.add_scal_vec (- a) u du) du = u.
Proof.
  intros Hlen. rewrite add_scal_vec_twice.
  replace (- a + a) with 0 by ring.
  by apply add_scal_vec_zero.
Qed.

(** Backing off from the scale [a] to the scale [b]. *)
Lemma add_scal_vec_retry a b (u du : vec) :
  Vector.add_scal_vec b
    (Vector.add_scal_vec (- a) (Vector.add_scal_vec a u du) du) du
  = Vector.add_scal_vec b u du.
Proof.
  rewrite !add_scal_vec_twice. f_equal. ring.
Qed.

Lemma dot_set_const c (v : vec) :
  Vector.dot (Vector.set_const c v) v = c * Vector.sum v.
Proof.
  unfold Vector.dot, Vector.set_const, Vector.sum.
  induction v as [|x v IH]; cbn [fmap list_fmap zip_with foldr].
  - ring.
  - change (c * x + Vector.dot (Vector.set_const c v) v
            = c * (x + Vector.sum v)).
    unfold Vector.dot, Vector.set_const, Vector.sum. rewrite IH. ring.
Qed.

(** ** Geometric step scales *)

Lemma Qcpower_pos_lt (r : Qc) (k : nat) : 0 < r -> 0 < r ^ k.
Proof.
  intros Hr. induction k as [|k IH]; simpl.
  - reflexivity.
  - by apply Qcmult_pos_pos.
Qed.

Lemma scale_shrinks (a r : Qc) (k : nat) :
  0 < a -> 0 < r -> r < 1 -> a * r ^ S k < a * r ^ k.
Proof.
  intros Ha Hr0 Hr1. simpl.
  assert (Hp : 0 < a * r ^ k).
  { apply Qcmult_pos_pos; [done | by apply Qcpower_pos_lt]. }
  replace (a * (r * r ^ k)) with (r * (a * r ^ k)) by ring.
  replace (a * r ^ k) with (1 * (a * r ^ k)) at 2 by ring.
  by apply Qcmult_lt_compat_r.
Qed.

Lemma scale_decreasing (a r : Qc) (j k : nat) :
  0 < a -> 0 < r -> r < 1 -> (j < k)%nat -> a * r ^ k < a * r ^ j.
Proof.
  intros Ha Hr0 Hr1 Hjk. induction Hjk as [|k Hjk IH].
  - by apply scale_shrinks.
  - eapply Qclt_trans; [by apply scale_shrinks | exact IH].
Qed.

(** ** Running the methods *)

Lemma vectors_getitem_du (w w' : world) (ldu : loc) :
  du_loc w = Some ldu ->
  vectors_getitem (_system w) "output" "" w' = Ok (ldu, w').
Proof.
  unfold du_loc, vectors_getitem. intros H.
  destruct (_vectors (_system w) !! "output") as [d|]; [|discriminate].
  rewrite H. reflexivity.
Qed.

(** Projections of updated worlds. *)
Ltac world_simpl :=
  cbn [heap alpha _system options log
       with_call with_alpha with_heap with_options].

Ltac world_norm :=
  unfold with_call, with_alpha, with_heap, with_options;
  cbn [heap alpha _system options log].

Lemma log_three {A} (l : list A) (a b c : A) :
  (((l ++ [a]) ++ [b]) ++ [c] = l ++ [a; b; c])%list.
Proof. by rewrite <- !app_assoc. Qed.

Lemma log_four {A} (l : list A) (a b c d : A) :
  ((((l ++ [a]) ++ [b]) ++ [c]) ++ [d] = l ++ [a; b; c; d])%list.
Proof. by rewrite <- !app_assoc. Qed.

(** What [_iter_initialize] returns and the world it leaves. *)
Lemma iter_initialize_run get_norm (w : world) (ldu : loc) (u du : vec)
    (v : value) :
  attached w ldu u du ->
  options w !! "alpha" = Some v ->
  _iter_initialize get_norm w
  = Ok ((guarded (get_norm (_system w) (heap w)),
         norm_at get_norm w (Vector.add_scal_vec (num v) u du)),
        mkWorld (<[u_loc w := Vector.add_scal_vec (num v) u du]> (heap w))
                (options w) (Some (num v)) (_system w)
                (log w ++ [Set_alpha (num v); Call_iter_get_norm;
                           Call_add_scal_vec (u_loc w) (num v) ldu;
                           Call_iter_get_norm])).
Proof.
  intros [Hdl Hu Hdu] Hv.
  unfold _iter_initialize, bind, get_system, options_getitem.
  rewrite Hv. cbn [setattr_alpha].
  rewrite (vectors_getitem_du w _ ldu Hdl).
  unfold iter_get_norm, getattr_alpha, add_scal_vec, bind, vec_read, tell,
    vec_write, ret.
  fold (u_loc w). world_simpl. rewrite Hu. world_simpl. rewrite Hdu.
  world_norm. rewrite log_four. reflexivity.
Qed.

(** What [_iter_execute] does to a world whose step scale is [a]. *)
Lemma iter_execute_run (w : world) (ldu : loc) (u du : vec) (a : Qc)
    (r : value) :
  attached w ldu u du ->
  u_loc w ≠ ldu ->
  alpha w = Some a ->
  options w !! "rho" = Some r ->
  _iter_execute w
  = Ok (tt,
        mkWorld (<[u_loc w := Vector.add_scal_vec (a * num r)
                                (Vector.add_scal_vec (- a) u du) du]> (heap w))
                (options w) (Some (a * num r)) (_system w)
                (log w ++ [Call_add_scal_vec (u_loc w) (- a) ldu;
                           Set_alpha (a * num r);
                           Call_add_scal_vec (u_loc w) (a * num r) ldu])).
Proof.
  intros [Hdl Hu Hdu] Hne Ha Hr.
  unfold _iter_execute, bind, get_system.
  rewrite (vectors_getitem_du w _ ldu Hdl).
  unfold getattr_alpha, options_getitem, setattr_alpha, add_scal_vec, bind,
    vec_read, tell, vec_write, ret.
  fold (u_loc w).
  repeat (world_simpl;
          first [ rewrite Ha | rewrite Hr | rewrite lookup_insert_eq
                | rewrite lookup_insert_ne by done | rewrite Hu
                | rewrite Hdu ]).
  world_norm. rewrite insert_insert_eq, log_three. reflexivity.
Qed.

(** The same, whether or not the update vector is the outputs object
    itself: the step scale is multiplied by [rho] and the solver stays
    attached. *)
Lemma iter_execute_scale (w : world) (ldu : loc) (u du : vec) (a : Qc)
    (r : value) :
  attached w ldu u du ->
  alpha w = Some a ->
  options w !! "rho" = Some r ->
  ∃ w' u' du',
    _iter_execute w = Ok (tt, w')
    ∧ attached w' ldu u' du'
    ∧ alpha w' = Some (a * num r)
    ∧ options w' = options w.
Proof.
  intros Hatt Ha Hr. pose proof Hatt as [Hdl Hu Hdu].
  destruct (decide (u_loc w = ldu)) as [Heq|Hne].
  - assert (Hud : du = u) by congruence. subst du.
    eexists. eexists. eexists. split.
    + unfold _iter_execute, bind, get_system.
      rewrite (vectors_getitem_du w _ ldu Hdl).
      unfold getattr_alpha, options_getitem, setattr_alpha, add_scal_vec,
        bind, vec_read, tell, vec_write, ret.
      fold (u_loc w). rewrite <- Heq.
      repeat (world_simpl;
              first [ rewrite Ha | rewrite Hr | rewrite lookup_insert_eq
                    | rewrite Hu ]).
      reflexivity.
    + world_norm. split; [|done]. rewrite insert_insert_eq. split.
      * exact Hdl.
      * unfold u_loc. cbn [_system]. apply lookup_insert_eq.
      * rewrite <- Heq. apply lookup_insert_eq.
  - eexists. eexists. eexists. split.
    + exact (iter_execute_run w ldu u du a r Hatt Hne Ha Hr).
    + split; [|done]. split.
      * exact Hdl.
      * unfold u_loc. cbn [_system heap]. apply lookup_insert_eq.
      * cbn [heap]. rewrite lookup_insert_ne by done. exact Hdu.
Qed.

Lemma refine_scale (w : world) (ldu : loc) (u du : vec) (a : Qc) (r : value)
    (k : nat) :
  attached w ldu u du ->
  alpha w = Some a ->
  options w !! "rho" = Some r ->
  ∃ w' u' du',
    refine k w = Ok (tt, w')
    ∧ attached w' ldu u' du'
    ∧ alpha w' = Some (a * num r ^ k)
    ∧ options w' = options w.
Proof.
  intros Hatt Ha Hr.
  induction k as [|k (w1 & u1 & du1 & Hrun & Hatt1 & Ha1 & Ho1)].
  - exists w, u, du. split; [reflexivity|]. split; [exact Hatt|].
    split; [|reflexivity].
    rewrite Ha. f_equal. simpl. ring.
  - destruct (iter_execute_scale w1 ldu u1 du1 _ r Hatt1 Ha1)
      as (w2 & u2 & du2 & Hex & Hatt2 & Ha2 & Ho2); [by rewrite Ho1|].
    exists w2, u2, du2. split.
    + cbn [refine]. unfold bind. rewrite Hrun. exact Hex.
    + split; [exact Hatt2|]. split; [|by rewrite Ho2].
      rewrite Ha2. f_equal. simpl. ring.
Qed.

(** [_iter_initialize] leaves the solver attached, whether or not the
    update vector is the outputs object itself. *)
Lemma iter_initialize_attached get_norm (w : world) (ldu : loc) (u du : vec)
    (v : value) :
  attached w ldu u du ->
  options w !! "alpha" = Some v ->
  ∃ norms w' u' du',
    _iter_initialize get_norm w = Ok (norms, w')
    ∧ attached w' ldu u' du'
    ∧ alpha w' = Some (num v)
    ∧ options w' = options w.
Proof.
  intros Hatt Hv. pose proof Hatt as [Hdl Hu Hdu].
  eexists. eexists. eexists.
  destruct (decide (u_loc w = ldu)) as [Heq|Hne].
  - exists (Vector.add_scal_vec (num v) u du). split.
    + exact (iter_initialize_run get_norm w ldu u du v Hatt Hv).
    + split; [|done]. split.
      * exact Hdl.
      * unfold u_loc. cbn [_system heap]. apply lookup_insert_eq.
      * cbn [heap]. rewrite <- Heq. apply lookup_insert_eq.
  - exists du. split.
    + exact (iter_initialize_run get_norm w ldu u du v Hatt Hv).
    + split; [|done]. split.
      * exact Hdl.
      * unfold u_loc. cbn [_system heap]. apply lookup_insert_eq.
      * cbn [heap]. rewrite lookup_insert_ne by done. exact Hdu.
Qed.

(** Whenever [_iter_initialize] returns, the first norm it returns is not
    zero. *)
Lemma iter_initialize_never_zero get_norm (w w' : world) (norm0 norm : Qc) :
  _iter_initialize get_norm w = Ok ((norm0, norm), w') -> norm0 ≠ 0.
Proof.
  unfold _iter_initialize, bind, get_system, options_getitem, setattr_alpha,
    vectors_getitem, iter_get_norm, getattr_alpha, add_scal_vec, bind,
    vec_read, tell, vec_write, ret, raise.
  intros H.
  repeat (cbn [heap alpha _system options log
                with_call with_alpha with_heap with_options] in H;
          case_match; try discriminate).
  all: inversion H; subst; done.
Qed.

(** ** Trial steps *)

Lemma on_trial_attached (w0 w : world) (ldu : loc) (u0 du : vec) (a : Qc) :
  attached w0 ldu u0 du ->
  u_loc w0 ≠ ldu ->
  on_trial w0 u0 du a w ->
  attached w ldu (Vector.add_scal_vec a u0 du) du ∧ u_loc w = u_loc w0.
Proof.
  intros [Hdl Hu Hdu] Hne [Hh Ho Ha Hs].
  assert (Hl : u_loc w = u_loc w0) by (unfold u_loc; by rewrite Hs).
  split; [|exact Hl]. split.
  - unfold du_loc. rewrite Hs. exact Hdl.
  - rewrite Hl, Hh. apply lookup_insert_eq.
  - rewrite Hh, lookup_insert_ne by done. exact Hdu.
Qed.

Lemma initialize_on_trial get_norm (w0 : world) (ldu : loc) (u0 du : vec)
    (v : value) :
  attached w0 ldu u0 du ->
  options w0 !! "alpha" = Some v ->
  ∃ w1, _iter_initialize get_norm w0
        = Ok ((guarded (get_norm (_system w0) (heap w0)),
               norm_at get_norm w0 (Vector.add_scal_vec (num v) u0 du)), w1)
        ∧ on_trial w0 u0 du (num v) w1.
Proof.
  intros Hatt Hv. eexists. split.
  - by apply (iter_initialize_run get_norm w0 ldu u0 du v).
  - by split.
Qed.

Lemma execute_on_trial (w0 w : world) (ldu : loc) (u0 du : vec) (a : Qc)
    (r : value) :
  attached w0 ldu u0 du ->
  u_loc w0 ≠ ldu ->
  options w0 !! "rho" = Some r ->
  on_trial w0 u0 du a w ->
  ∃ w', _iter_execute w = Ok (tt, w') ∧ on_trial w0 u0 du (a * num r) w'.
Proof.
  intros Hatt Hne Hr Ht.
  destruct (on_trial_attached w0 w ldu u0 du a Hatt Hne Ht) as [Hatt' Hl].
  destruct Ht as [Hh Ho Ha Hs].
  eexists. split.
  - apply (iter_execute_run w ldu _ du a r Hatt'); [by rewrite Hl | done|].
    by rewrite Ho.
  - split; cbn [heap options alpha _system]; try done.
    rewrite Hl, Hh, insert_insert_eq, add_scal_vec_retry. reflexivity.
Qed.

Lemma get_norm_on_trial get_norm (w0 w : world) (u0 du : vec) (a : Qc) :
  on_trial w0 u0 du a w ->
  ∃ w', iter_get_norm get_norm w
        = Ok (norm_at get_norm w0 (Vector.add_scal_vec a u0 du), w')
        ∧ on_trial w0 u0 du a w'.
Proof.
  intros [Hh Ho Ha Hs]. eexists. split.
  - unfold iter_get_norm, norm_at. by rewrite Hs, Hh.
  - by split.
Qed.

Lemma refine_on_trial (w0 w : world) (ldu : loc) (u0 du : vec) (a : Qc)
    (r : value) (k : nat) :
  attached w0 ldu u0 du ->
  u_loc w0 ≠ ldu ->
  options w0 !! "rho" = Some r ->
  on_trial w0 u0 du a w ->
  ∃ w', refine k w = Ok (tt, w') ∧ on_trial w0 u0 du (a * num r ^ k) w'.
Proof.
  intros Hatt Hne Hr Ht. induction k as [|k (w1 & Hrun & Ht1)].
  - exists w. split; [reflexivity|].
    replace (a * num r ^ 0) with a by (simpl; ring). exact Ht.
  - destruct (execute_on_trial w0 w1 ldu u0 du _ r Hatt Hne Hr Ht1)
      as (w2 & Hex & Ht2).
    exists w2. split.
    + cbn [refine]. unfold bind. rewrite Hrun. exact Hex.
    + replace (a * num r ^ S k) with (a * num r ^ k * num r)
        by (simpl; ring).
      exact Ht2.
Qed.

(** ** The base loop on trial steps *)

Lemma is_converged_run (w : world) (rtol atol : value) (norm0 norm : Qc) :
  options w !! "rtol" = Some rtol ->
  options w !! "atol" = Some atol ->
  is_converged norm0 norm w
  = Ok (converged_at (num rtol) (num atol) norm0 norm, w).
Proof.
  intros Hr Ha. unfold is_converged, bind, options_getitem.
  rewrite Hr, Ha. reflexivity.
Qed.

Section Loop.

Variable get_norm : System -> gmap loc vec -> Qc.
Variables (w0 : world) (ldu : loc) (u0 du : vec).
Variables (a0 : Qc) (r rtol atol : value) (norm0 : Qc).

Hypothesis Hatt : attached w0 ldu u0 du.
Hypothesis Hne : u_loc w0 ≠ ldu.
Hypothesis Hrho : options w0 !! "rho" = Some r.
Hypothesis Hrtol : options w0 !! "rtol" = Some rtol.
Hypothesis Hatol : options w0 !! "atol" = Some atol.

Local Abbreviation passes j :=
  (converged_at (num rtol) (num atol) norm0
     (trial_norm get_norm w0 a0 (num r) u0 du j)).

(** From the [j]-th trial point with [budget] refinements left, the loop
    returns: it stops at the first trial point [k] it accepts, or at the
    last one it may attempt, and leaves the world on that trial step. *)
Lemma iterate_on_trial (budget j : nat) (w : world) :
  on_trial w0 u0 du (a0 * num r ^ j) w ->
  ∃ st k w',
    iterate get_norm budget norm0
      (trial_norm get_norm w0 a0 (num r) u0 du j) j w
    = Ok ((st, k, trial_norm get_norm w0 a0 (num r) u0 du k), w')
    ∧ on_trial w0 u0 du (a0 * num r ^ k) w'
    ∧ (j <= k <= j + budget)%nat
    ∧ (∀ i, (j <= i < k)%nat -> passes i = false)
    ∧ match st with
      | CONVERGED => passes k = true
      | FAILED_MAXITER => k = (j + budget)%nat ∧ passes k = false
      end.
Proof.
  revert j w. induction budget as [|b IH]; intros j w Ht.
  - cbn [iterate]. unfold bind.
    rewrite (is_converged_run w rtol atol)
      by (by rewrite (trial_options _ _ _ _ _ Ht)).
    destruct (passes j) eqn:Hacc.
    + exists CONVERGED, j, w. split; [reflexivity|]. split; [exact Ht|].
      split; [lia|]. split; [intros; lia | done].
    + exists FAILED_MAXITER, j, w. split; [reflexivity|]. split; [exact Ht|].
      split; [lia|]. split; [intros; lia | done].
  - cbn [iterate]. unfold bind.
    rewrite (is_converged_run w rtol atol)
      by (by rewrite (trial_options _ _ _ _ _ Ht)).
    destruct (passes j) eqn:Hacc.
    + exists CONVERGED, j, w. split; [reflexivity|]. split; [exact Ht|].
      split; [lia|]. split; [intros; lia | done].
    + destruct (execute_on_trial w0 w ldu u0 du _ r Hatt Hne Hrho Ht)
        as (w1 & Hex & Ht1).
      rewrite Hex.
      replace (a0 * num r ^ j * num r) with (a0 * num r ^ S j) in Ht1
        by (simpl; ring).
      destruct (get_norm_on_trial get_norm w0 w1 u0 du _ Ht1)
        as (w2 & Hgn & Ht2).
      rewrite Hgn.
      destruct (IH (S j) w2 Ht2)
        as (st & k & w' & Hrun & Ht' & Hk & Hrej & Hst).
      exists st, k, w'. split; [exact Hrun|].
      split; [exact Ht'|]. split; [lia|]. split.
      * intros i Hi. destruct (decide (i = j)) as [->|Hij]; [exact Hacc|].
        apply Hrej. lia.
      * destruct st; [exact Hst|].
        destruct Hst as [-> Hst]. split; [lia | exact Hst].
Qed.

End Loop.

(** ** The claims *)

Ltac not_in_log H :=
  repeat (apply elem_of_cons in H as [H|H]; [discriminate H|]);
  by apply elem_of_nil in H.

(** C1.  In every world where the solver is attached to its system and
    [options['alpha']] is set, [_iter_initialize] assigns that value to
    [alpha], measures the norm, applies [u += alpha * du] to the outputs
    object, measures the norm again, in this order, and returns the first
    norm (1 in place of 0) with the second. *)
Theorem iter_initialize_sequence get_norm (w : world) (ldu : loc)
    (u du : vec) (v : value) :
  attached w ldu u du ->
  options w !! "alpha" = Some v ->
  ∃ w',
    let stepped := <[u_loc w := Vector.add_scal_vec (num v) u du]> (heap w) in
    let measured := get_norm (_system w) (heap w) in
    _iter_initialize get_norm w
    = Ok ((if decide (measured = 0) then 1 else measured,
           get_norm (_system w) stepped), w')
    ∧ alpha w' = Some (num v)
    ∧ heap w' = stepped
    ∧ log w' = (log w ++ [Set_alpha (num v); Call_iter_get_norm;
                          Call_add_scal_vec (u_loc w) (num v) ldu;
                          Call_iter_get_norm])%list
    ∧ options w' = options w
    ∧ _system w' = _system w.
Proof.
  intros Hatt Hv. eexists. cbn zeta. split.
  - exact (iter_initialize_run get_norm w ldu u du v Hatt Hv).
  - by repeat split.
Qed.

Lemma iter_initialize_sequence_witness :
  ∃ w',
    _iter_initialize Sample.get_norm Sample.start
    = Ok ((if decide (Sample.get_norm Sample.system (heap Sample.start) = 0)
           then 1
           else Sample.get_norm Sample.system (heap Sample.start),
           Sample.get_norm Sample.system
             (<[0%nat := Vector.add_scal_vec 1 Sample.u0 Sample.du]>
                (heap Sample.start))), w')
    ∧ alpha w' = Some 1
    ∧ heap w' = <[0%nat := Vector.add_scal_vec 1 Sample.u0 Sample.du]>
                  (heap Sample.start)
    ∧ log w' = [Set_alpha 1; Call_iter_get_norm;
                Call_add_scal_vec 0%nat 1 1%nat; Call_iter_get_norm]
    ∧ options w' = options Sample.start
    ∧ _system w' = Sample.system.
Proof.
  apply (iter_initialize_sequence Sample.get_norm Sample.start 1%nat
           Sample.u0 Sample.du (VFloat 1)).
  - split; reflexivity.
  - reflexivity.
Defined.

(** C2.  In every attached world whose update vector is an object of its
    own and whose step scale is [a], [_iter_execute] undoes the previous
    trial step ([u += (-a) * du]), then multiplies the scale by
    [options['rho']], then applies [u += (a * rho) * du], in this order;
    both steps use the same update object, whose contents do not change. *)
Theorem iter_execute_sequence (w : world) (ldu : loc) (u du : vec) (a : Qc)
    (r : value) :
  attached w ldu u du ->
  u_loc w ≠ ldu ->
  alpha w = Some a ->
  options w !! "rho" = Some r ->
  ∃ w',
    _iter_execute w = Ok (tt, w')
    ∧ log w' = (log w ++ [Call_add_scal_vec (u_loc w) (- a) ldu;
                          Set_alpha (a * num r);
                          Call_add_scal_vec (u_loc w) (a * num r) ldu])%list
    ∧ alpha w' = Some (a * num r)
    ∧ heap w' !! u_loc w
      = Some (Vector.add_scal_vec (a * num r)
                (Vector.add_scal_vec (- a) u du) du)
    ∧ heap w' !! ldu = Some du.
Proof.
  intros Hatt Hne Ha Hr. eexists. split.
  - exact (iter_execute_run w ldu u du a r Hatt Hne Ha Hr).
  - cbn [log alpha heap]. split; [done|]. split; [done|]. split.
    + apply lookup_insert_eq.
    + rewrite lookup_insert_ne by done. apply Hatt.
Qed.

Lemma iter_execute_sequence_witness :
  ∃ w',
    _iter_execute Sample.stepped = Ok (tt, w')
    ∧ log w' = [Call_add_scal_vec 0%nat (- (1)) 1%nat;
                Set_alpha (1 * half);
                Call_add_scal_vec 0%nat (1 * half) 1%nat]
    ∧ alpha w' = Some (1 * half)
    ∧ heap w' !! 0%nat
      = Some (Vector.add_scal_vec (1 * half)
                (Vector.add_scal_vec (- (1)) [1; 1] Sample.du) Sample.du)
    ∧ heap w' !! 1%nat = Some Sample.du.
Proof.
  apply (iter_execute_sequence Sample.stepped 1%nat [1; 1] Sample.du 1
           (VFloat half)).
  - split; reflexivity.
  - discriminate.
  - reflexivity.
  - reflexivity.
Defined.




(** C4.  In every attached world with [options['alpha']] set,
    [_iter_initialize] returns, and the first component of the pair it
    returns is not zero: it is 1 when the measured norm is zero and the
    measured norm otherwise. *)
Theorem iter_initialize_norm0_nonzero get_norm (w : world) (ldu : loc)
    (u du : vec) (v : value) :
  attached w ldu u du ->
  options w !! "alpha" = Some v ->
  ∃ norm0 norm w',
    _iter_initialize get_norm w = Ok ((norm0, norm), w')
    ∧ norm0 ≠ 0
    ∧ (get_norm (_system w) (heap w) = 0 -> norm0 = 1)
    ∧ (get_norm (_system w) (heap w) ≠ 0 ->
       norm0 = get_norm (_system w) (heap w)).
Proof.
  intros Hatt Hv. eexists. eexists. eexists. split.
  - exact (iter_initialize_run get_norm w ldu u du v Hatt Hv).
  - unfold guarded.
    destruct (decide (get_norm (_system w) (heap w) = 0)) as [Hz|Hnz].
    + split; [discriminate|]. split; [done|]. intros Hnz. by destruct Hnz.
    + split; [exact Hnz|]. split; [intros Hz; by destruct Hnz | done].
Qed.

Lemma iter_initialize_norm0_nonzero_witness :
  ∃ norm0 norm w',
    _iter_initialize Sample.get_norm Sample.start = Ok ((norm0, norm), w')
    ∧ norm0 ≠ 0
    ∧ (Sample.get_norm Sample.system (heap Sample.start) = 0 -> norm0 = 1)
    ∧ (Sample.get_norm Sample.system (heap Sample.start) ≠ 0 ->
       norm0 = Sample.get_norm Sample.system (heap Sample.start)).
Proof.
  apply (iter_initialize_norm0_nonzero Sample.get_norm Sample.start 1%nat
           Sample.u0 Sample.du (VFloat 1)).
  - split; reflexivity.
  - reflexivity.
Defined.




(** C6: what the code does.  In every attached world, with
    [options['solve_subsystems']] set to [True], [_iter_initialize] followed
    by [_iter_execute] issues the calls listed below and no others: the
    norm is measured right after each trial step, and no sub-solve is
    called, before it or anywhere else. *)
Theorem solve_subsystems_never_called get_norm (w : world) (ldu : loc)
    (u du : vec) (v r : value) :
  attached w ldu u du ->
  u_loc w ≠ ldu ->
  options w !! "alpha" = Some v ->
  options w !! "rho" = Some r ->
  options w !! "solve_subsystems" = Some (VBool true) ->
  ∃ norms w1 w2 calls,
    _iter_initialize get_norm w = Ok (norms, w1)
    ∧ _iter_execute w1 = Ok (tt, w2)
    ∧ log w2 = (log w ++ calls)%list
    ∧ calls = [Set_alpha (num v); Call_iter_get_norm;
               Call_add_scal_vec (u_loc w) (num v) ldu; Call_iter_get_norm;
               Call_add_scal_vec (u_loc w) (- num v) ldu;
               Set_alpha (num v * num r);
               Call_add_scal_vec (u_loc w) (num v * num r) ldu]
    ∧ (Call_solve_subsystems ∉ calls).
Proof.
  intros Hatt Hne Hv Hr _.
  destruct (initialize_on_trial get_norm w ldu u du v Hatt Hv)
    as (w1 & Hinit & Ht1).
  pose proof (iter_initialize_run get_norm w ldu u du v Hatt Hv) as Hinit'.
  rewrite Hinit in Hinit'. injection Hinit' as Hw1.
  destruct (on_trial_attached w w1 ldu u du (num v) Hatt Hne Ht1)
    as [Hatt1 Hl].
  pose proof (iter_execute_run w1 ldu _ du (num v) r Hatt1) as Hex.
  rewrite Hl in Hex. specialize (Hex Hne (trial_alpha _ _ _ _ _ Ht1)).
  rewrite (trial_options _ _ _ _ _ Ht1) in Hex. specialize (Hex Hr).
  eexists. exists w1. eexists. eexists.
  split; [exact Hinit|]. split; [exact Hex|].
  split; [|split; [reflexivity|]].
  - cbn [log]. rewrite Hw1. cbn [log]. rewrite <- app_assoc. reflexivity.
  - intros H. not_in_log H.
Qed.

Lemma solve_subsystems_never_called_witness :
  ∃ norms w1 w2 calls,
    _iter_initialize Sample.get_norm Sample.start = Ok (norms, w1)
    ∧ _iter_execute w1 = Ok (tt, w2)
    ∧ log w2 = calls
    ∧ calls = [Set_alpha 1; Call_iter_get_norm;
               Call_add_scal_vec 0%nat 1 1%nat; Call_iter_get_norm;
               Call_add_scal_vec 0%nat (- (1)) 1%nat;
               Set_alpha (1 * half);
               Call_add_scal_vec 0%nat (1 * half) 1%nat]
    ∧ (Call_solve_subsystems ∉ calls).
Proof.
  apply (solve_subsystems_never_called Sample.get_norm Sample.start 1%nat
           Sample.u0 Sample.du (VFloat 1) (VFloat half)).
  - split; reflexivity.
  - discriminate.
  - reflexivity.
  - reflexivity.
  - reflexivity.
Defined.

(** C7.  For two vector objects of the same layout, [u.add_scal_vec(-a, du)]
    followed by [u.add_scal_vec(a, du)] returns and leaves [u], and the
    whole store, as it was. *)
Theorem add_scal_vec_undo_reapply (w : world) (lu ldu : loc) (u du : vec)
    (a : Qc) :
  heap w !! lu = Some u ->
  heap w !! ldu = Some du ->
  lu ≠ ldu ->
  length du = length u ->
  ∃ w',
    (let* _ := add_scal_vec lu (- a) ldu in add_scal_vec lu a ldu) w
    = Ok (tt, w')
    ∧ heap w' !! lu = Some u
    ∧ heap w' = heap w.
Proof.
  intros Hu Hdu Hne Hlen. eexists. split.
  - unfold add_scal_vec, bind, vec_read, tell, vec_write, ret.
    repeat (world_simpl;
            first [ rewrite lookup_insert_eq
                  | rewrite lookup_insert_ne by done | rewrite Hu
                  | rewrite Hdu ]).
    reflexivity.
  - world_norm. rewrite insert_insert_eq, add_scal_vec_undo by done.
    rewrite insert_id by done. done.
Qed.

Lemma add_scal_vec_undo_reapply_witness :
  ∃ w',
    (let* _ := add_scal_vec 0%nat (- half) 1%nat in
     add_scal_vec 0%nat half 1%nat) Sample.stepped
    = Ok (tt, w')
    ∧ heap w' !! 0%nat = Some [1; 1]
    ∧ heap w' = heap Sample.stepped.
Proof.
  apply (add_scal_vec_undo_reapply Sample.stepped 0%nat 1%nat [1; 1]
           Sample.du half).
  - reflexivity.
  - reflexivity.
  - discriminate.
  - reflexivity.
Defined.

(** C8.  Whatever the base initialiser has left, after [__init__] the
    options are [maxiter = 5], [solve_subsystems = True], [rho = 0.5],
    [alpha = 1.0] and [rtol = 0.9]; every other option and the rest of the
    object are untouched. *)
Theorem init_option_defaults (w : world) :
  ∃ w',
    __init__ w = Ok (tt, w')
    ∧ options w' !! "maxiter" = Some (VInt 5)
    ∧ options w' !! "solve_subsystems" = Some (VBool true)
    ∧ options w' !! "rho" = Some (VFloat (Q2Qc (1 # 2)))
    ∧ options w' !! "alpha" = Some (VFloat 1)
    ∧ options w' !! "rtol" = Some (VFloat (Q2Qc (9 # 10)))
    ∧ (∀ name,
         name ∉ ["maxiter"; "solve_subsystems"; "rho"; "alpha"; "rtol"] ->
         options w' !! name = options w !! name)
    ∧ heap w' = heap w ∧ alpha w' = alpha w ∧ _system w' = _system w
    ∧ log w' = log w.
Proof.
  eexists. split; [reflexivity|]. world_norm.
  repeat (split; [by simplify_map_eq|]).
  split; [|done].
  intros name Hname.
  repeat (rewrite lookup_insert_ne;
          [|intros <-; apply Hname; set_solver]).
  reflexivity.
Qed.

(** C9.  For every vector object holding [v] and every scalar [c], cloning
    it, filling the clone with [c] and taking the dot product of the clone
    with the original returns [c * sum v], and the original still holds
    [v]. *)
Theorem dot_of_filled_clone_law (w : world) (l : loc) (v : vec) (c : Qc) :
  heap w !! l = Some v ->
  ∃ w',
    TestVector.dot_of_filled_clone l c w = Ok (c * Vector.sum v, w')
    ∧ heap w' !! l = Some v.
Proof.
  intros Hv.
  assert (Hfresh : fresh (dom (heap w)) ≠ l).
  { intros Heq. apply (is_fresh (dom (heap w))).
    rewrite Heq. apply elem_of_dom. by exists v. }
  eexists. split.
  - unfold TestVector.dot_of_filled_clone, _clone, set_const, dot, bind,
      vec_read, vec_write, ret.
    repeat (world_simpl;
            first [ rewrite lookup_insert_eq
                  | rewrite lookup_insert_ne by done | rewrite Hv ]).
    rewrite dot_set_const. reflexivity.
  - world_norm. by rewrite !lookup_insert_ne by done.
Qed.

(** The instance of the test: [{1.0, 2.0}] filled with [3.0] gives [9.0],
    and the outputs still hold [{1.0, 2.0}]. *)
Lemma dot_of_filled_clone_law_witness :
  ∃ w',
    TestVector.test_dot TestVector.fixture = Ok (Q2Qc 9, w')
    ∧ heap w' !! 0%nat = Some [1; 1 + 1].
Proof.
  destruct (dot_of_filled_clone_law TestVector.fixture 0%nat [1; 1 + 1]
              (1 + 1 + 1) eq_refl) as (w' & Hrun & Hkeep).
  exists w'. split; [|exact Hkeep].
  unfold TestVector.test_dot. rewrite Hrun.
  assert (H9 : (1 + 1 + 1) * Vector.sum [1; 1 + 1] = Q2Qc 9)
    by (apply Qc_is_canon; reflexivity).
  rewrite H9. reflexivity.
Defined.

(** C10.  In every attached world whose update vector is an object of its
    own, [_iter_execute] returns having changed only the outputs object and
    the step scale: the update vector, every other object of the store, the
    options ([rho] among them) and the system are as before, and the calls
    it issued include no norm measurement and no sub-solve. *)
Theorem iter_execute_frame (w : world) (ldu : loc) (u du : vec) (a : Qc)
    (r : value) :
  attached w ldu u du ->
  u_loc w ≠ ldu ->
  alpha w = Some a ->
  options w !! "rho" = Some r ->
  ∃ w',
    _iter_execute w = Ok (tt, w')
    ∧ heap w' !! ldu = Some du
    ∧ (∀ l, l ≠ u_loc w -> heap w' !! l = heap w !! l)
    ∧ options w' = options w
    ∧ _system w' = _system w
    ∧ (∃ calls, log w' = (log w ++ calls)%list
                ∧ (Call_iter_get_norm ∉ calls)
                ∧ (Call_solve_subsystems ∉ calls)).
Proof.
  intros Hatt Hne Ha Hr. eexists. split.
  - exact (iter_execute_run w ldu u du a r Hatt Hne Ha Hr).
  - cbn [heap options _system log]. split.
    + rewrite lookup_insert_ne by done. apply Hatt.
    + split; [intros l Hl; by rewrite lookup_insert_ne|].
      split; [done|]. split; [done|].
      eexists. split; [reflexivity|].
      split; intros H; not_in_log H.
Qed.

Lemma iter_execute_frame_witness :
  ∃ w',
    _iter_execute Sample.stepped = Ok (tt, w')
    ∧ heap w' !! 1%nat = Some Sample.du
    ∧ (∀ l, l ≠ 0%nat -> heap w' !! l = heap Sample.stepped !! l)
    ∧ options w' = options Sample.stepped
    ∧ _system w' = Sample.system
    ∧ (∃ calls, log w' = calls
                ∧ (Call_iter_get_norm ∉ calls)
                ∧ (Call_solve_subsystems ∉ calls)).
Proof.
  apply (iter_execute_frame Sample.stepped 1%nat [1; 1] Sample.du 1
           (VFloat half)).
  - split; reflexivity.
  - discriminate.
  - reflexivity.
  - reflexivity.
Defined.

(** * Further properties of the line search *)

Ltac run_cases H :=
  repeat (cbn [heap alpha _system options log
                with_call with_alpha with_heap with_options] in H;
          case_match; try discriminate).




(** X3.  On a solver that has just been constructed, before any
    [_iter_initialize], [_iter_execute] raises [AttributeError] for
    [alpha]: the constructor does not assign the step scale. *)
Theorem fresh_solver_cannot_refine (w : world) (ldu : loc) :
  du_loc w = Some ldu ->
  alpha w = None ->
  (let* _ := __init__ in _iter_execute) w = Raise (AttributeError "alpha").
Proof.
  intros Hdl Ha.
  unfold bind, __init__, options_setitem, options_declare, bind.
  unfold _iter_execute, bind, get_system.
  cbn [_system with_options].
  rewrite (vectors_getitem_du w _ ldu Hdl).
  unfold getattr_alpha. cbn [alpha with_options]. rewrite Ha. reflexivity.
Qed.

Lemma fresh_solver_cannot_refine_witness :
  (let* _ := __init__ in _iter_execute) Sample.start
  = Raise (AttributeError "alpha").
Proof.
  apply (fresh_solver_cannot_refine Sample.start 1%nat); reflexivity.
Defined.


Ltac both_runs H :=
  repeat (world_simpl; rewrite ?H; try reflexivity;
          match goal with
          | |- context [match ?x with _ => _ end] =>
              lazymatch x with
              | context [match _ with _ => _ end] => fail
              | _ => destruct x
              end
          end).

(** X4.  [_iter_execute] reads no option but [rho]: under any other
    options with the same [rho] it has the same outcome (the same result,
    store, step scale and calls, or the same exception). *)
Theorem iter_execute_reads_only_rho (w : world) (o : gmap string value) :
  o !! "rho" = options w !! "rho" ->
  _iter_execute (with_options o w) = carrying o (_iter_execute w).
Proof.
  intros Hrho.
  unfold _iter_execute, bind, get_system, options_getitem, setattr_alpha,
    vectors_getitem, getattr_alpha, add_scal_vec, bind,
    vec_read, tell, vec_write, ret, raise, carrying.
  both_runs Hrho.
Qed.

(** X5.  [_iter_initialize] reads no option but [alpha]: under any other
    options with the same [alpha] it has the same outcome. *)
Theorem iter_initialize_reads_only_alpha get_norm (w : world)
    (o : gmap string value) :
  o !! "alpha" = options w !! "alpha" ->
  _iter_initialize get_norm (with_options o w)
  = carrying o (_iter_initialize get_norm w).
Proof.
  intros Hal.
  unfold _iter_initialize, bind, get_system, options_getitem, setattr_alpha,
    vectors_getitem, iter_get_norm, getattr_alpha, add_scal_vec, bind,
    vec_read, tell, vec_write, ret, raise, carrying.
  both_runs Hal.
Qed.

Lemma iter_execute_reads_only_rho_witness :
  _iter_execute
    (with_options (<["solve_subsystems" := VBool false]>
                     (<["maxiter" := VInt 100]> (options Sample.stepped)))
       Sample.stepped)
  = carrying (<["solve_subsystems" := VBool false]>
                (<["maxiter" := VInt 100]> (options Sample.stepped)))
      (_iter_execute Sample.stepped).
Proof.
  apply (iter_execute_reads_only_rho Sample.stepped). reflexivity.
Defined.

Lemma iter_initialize_reads_only_alpha_witness :
  _iter_initialize Sample.get_norm
    (with_options (<["rho" := VFloat 1]> (options Sample.start)) Sample.start)
  = carrying (<["rho" := VFloat 1]> (options Sample.start))
      (_iter_initialize Sample.get_norm Sample.start).
Proof.
  apply (iter_initialize_reads_only_alpha Sample.get_norm Sample.start).
  reflexivity.
Defined.

(** X6.  With [options['rho'] = 1], which the declaration allows,
    [_iter_execute] leaves the outputs (and every object of the store) and
    the step scale as they were: the refinement makes no progress. *)
Theorem unit_rho_never_moves (w : world) (ldu : loc) (u du : vec) (a : Qc)
    (r : value) :
  attached w ldu u du ->
  u_loc w ≠ ldu ->
  length du = length u ->
  alpha w = Some a ->
  options w !! "rho" = Some r ->
  num r = 1 ->
  ∃ w', _iter_execute w = Ok (tt, w')
        ∧ heap w' = heap w
        ∧ alpha w' = Some a.
Proof.
  intros Hatt Hne Hlen Ha Hr H1. eexists. split.
  - exact (iter_execute_run w ldu u du a r Hatt Hne Ha Hr).
  - cbn [heap alpha]. rewrite H1.
    replace (a * 1) with a by ring.
    rewrite add_scal_vec_undo by done.
    split; [|done]. apply insert_id, Hatt.
Qed.

Lemma unit_rho_never_moves_witness :
  ∃ w', _iter_execute
          (with_options (<["rho" := VFloat 1]> (options Sample.stepped))
             Sample.stepped) = Ok (tt, w')
        ∧ heap w' = heap Sample.stepped
        ∧ alpha w' = Some 1.
Proof.
  apply (unit_rho_never_moves
           (with_options (<["rho" := VFloat 1]> (options Sample.stepped))
              Sample.stepped) 1%nat [1; 1] Sample.du 1 (VFloat 1)).
  - split; reflexivity.
  - discriminate.
  - reflexivity.
  - reflexivity.
  - reflexivity.
  - reflexivity.
Defined.

(** X7.  With [options['rho'] = 0], after [_iter_initialize] and any
    positive number of refinements the outputs are back at their value
    before the line search and the step scale is 0. *)
Theorem zero_rho_restores_outputs get_norm (w : world) (ldu : loc)
    (u du : vec) (v r : value) (k : nat) :
  attached w ldu u du ->
  u_loc w ≠ ldu ->
  length du = length u ->
  options w !! "alpha" = Some v ->
  options w !! "rho" = Some r ->
  num r = 0 ->
  ∃ w', (let* _ := _iter_initialize get_norm in refine (S k)) w = Ok (tt, w')
        ∧ heap w' = heap w
        ∧ alpha w' = Some 0.
Proof.
  intros Hatt Hne Hlen Hv Hr H0.
  destruct (initialize_on_trial get_norm w ldu u du v Hatt Hv)
    as (w1 & Hinit & Ht1).
  destruct (refine_on_trial w w1 ldu u du (num v) r (S k) Hatt Hne Hr Ht1)
    as (w2 & Hrun & [Hh Ho Ha Hs]).
  exists w2. split; [unfold bind; by rewrite Hinit|].
  assert (Hz : num v * num r ^ S k = 0) by (rewrite H0; simpl; ring).
  rewrite Hz in Hh, Ha. split; [|exact Ha].
  rewrite Hh, add_scal_vec_zero by done. apply insert_id, Hatt.
Qed.

Lemma zero_rho_restores_outputs_witness :
  ∃ w', (let* _ := _iter_initialize Sample.get_norm in refine 3)
          (with_options (<["rho" := VFloat 0]> (options Sample.start))
             Sample.start) = Ok (tt, w')
        ∧ heap w' = heap Sample.start
        ∧ alpha w' = Some 0.
Proof.
  apply (zero_rho_restores_outputs Sample.get_norm
           (with_options (<["rho" := VFloat 0]> (options Sample.start))
              Sample.start) 1%nat Sample.u0 Sample.du (VFloat 1) (VFloat 0) 2).
  - split; reflexivity.
  - discriminate.
  - reflexivity.
  - reflexivity.
  - reflexivity.
  - reflexivity.
Defined.

(** The constructor sets [alpha] and [rho] and touches neither the store
    nor the system. *)
Lemma init_defaults_run (w : world) :
  ∃ w0, __init__ w = Ok (tt, w0)
        ∧ options w0 !! "alpha" = Some (VFloat 1)
        ∧ options w0 !! "rho" = Some (VFloat half)
        ∧ heap w0 = heap w
        ∧ _system w0 = _system w.
Proof.
  eexists. split; [reflexivity|]. world_norm.
  split; [by simplify_map_eq|]. split; [by simplify_map_eq|]. done.
Qed.



(** * Properties of the debugging functions *)

(** ** Strings and streams *)

Lemma string_app_cons (a : Ascii.ascii) (s t : string) :
  String a s +:+ t = String a (s +:+ t).
Proof. reflexivity. Qed.

Lemma string_app_nil_r (s : string) : s +:+ "" = s.
Proof.
  induction s as [|a s IH]; [done|]. by rewrite string_app_cons, IH.
Qed.

Lemma string_app_assoc (s t u : string) : (s +:+ t) +:+ u = s +:+ (t +:+ u).
Proof.
  induction s as [|a s IH]; [done|]. by rewrite !string_app_cons, IH.
Qed.

Lemma string_length_app (s t : string) :
  String.length (s +:+ t) = (String.length s + String.length t)%nat.
Proof.
  induction s as [|a s IH]; [done|].
  rewrite string_app_cons. cbn. by rewrite IH.
Qed.

Lemma text_of_app (l k : list string) :
  Debug.text_of (l ++ k)%list = Debug.text_of l +:+ Debug.text_of k.
Proof.
  unfold Debug.text_of. induction l as [|s l IH]; [done|].
  cbn [app foldr]. by rewrite IH, string_app_assoc.
Qed.

Lemma written_write_eq (c : Debug.chan) (s : string)
    (o : gmap Debug.chan (list string)) :
  Debug.written (Debug.write c s o) c = (Debug.written o c ++ [s])%list.
Proof. unfold Debug.written, Debug.write. by rewrite lookup_insert_eq. Qed.

Lemma written_write_ne (c c' : Debug.chan) (s : string)
    (o : gmap Debug.chan (list string)) :
  c ≠ c' -> Debug.written (Debug.write c s o) c' = Debug.written o c'.
Proof.
  intros Hne. unfold Debug.written, Debug.write.
  by rewrite lookup_insert_ne.
Qed.

(** ** The colour printer *)

(** What a run of prints adds to the stream and to standard output. *)
Lemma cprint_all_written (stream : Debug.chan) (style : Debug.palette)
    (c : Debug.colours) (calls : list Debug.cprint_call)
    (o : gmap Debug.chan (list string)) :
  stream ≠ Debug.stdout ->
  Debug.written (Debug.cprint_all (Debug.Loud stream style) c calls o) stream
  = (Debug.written o stream
     ++ flat_map (fun k => [Debug.colour_sum c (Debug.call_color k)
                            +:+ Debug.call_text k;
                            style "RESET_ALL"]) calls)%list
  ∧ Debug.written (Debug.cprint_all (Debug.Loud stream style) c calls o)
      Debug.stdout
    = (Debug.written o Debug.stdout ++ (Debug.call_end <$> calls))%list.
Proof.
  intros Hne. revert o.
  induction calls as [|k calls IH]; intros o.
  - cbn. by rewrite !app_nil_r.
  - cbn [Debug.cprint_all foldl flat_map fmap list_fmap].
    destruct (IH (Debug.color_print (Debug.Loud stream style)
                    (Debug.call_text k)
                    (Debug.colour_sum c (Debug.call_color k))
                    (Debug.call_end k) o)) as [IHs IHo].
    unfold Debug.cprint_all in IHs, IHo. rewrite IHs, IHo.
    unfold Debug.color_print. split.
    + rewrite written_write_ne by done.
      rewrite !written_write_eq. by rewrite <- !app_assoc.
    + rewrite written_write_eq.
      rewrite !written_write_ne by done. by rewrite <- !app_assoc.
Qed.

(** X9.  Through a printer on a stream other than standard output, the
    stream receives the coloured texts and the resets and none of the line
    ends; the line ends, and nothing else, go to standard output. *)
Theorem color_print_line_ends_go_to_stdout (stream : Debug.chan)
    (style : Debug.palette) (c : Debug.colours)
    (calls : list Debug.cprint_call) (o : gmap Debug.chan (list string)) :
  stream ≠ Debug.stdout ->
  Debug.written (Debug.cprint_all (Debug.Loud stream style) c calls o) stream
  = (Debug.written o stream
     ++ flat_map (fun k => [Debug.colour_sum c (Debug.call_color k)
                            +:+ Debug.call_text k;
                            style "RESET_ALL"]) calls)%list
  ∧ Debug.written (Debug.cprint_all (Debug.Loud stream style) c calls o)
      Debug.stdout
    = (Debug.written o Debug.stdout ++ (Debug.call_end <$> calls))%list.
Proof. exact (cprint_all_written stream style c calls o). Qed.

Lemma colour_sum_no_color (xs : list Debug.colour_of) :
  Debug.colour_sum
    (Debug.mkColours Debug._NoColor Debug._NoColor Debug._NoColor) xs = "".
Proof.
  induction xs as [|x xs IH]; [done|].
  cbn [Debug.colour_sum foldr]. unfold Debug.colour_sum in IH. rewrite IH.
  by destruct x.
Qed.

(** X10.  With [colors] false, on the process that prints, the text the
    printer writes to a stream other than standard output is the texts it
    is given, one after the other, with no escape code, whether or not
    colorama is installed. *)
Theorem colors_off_writes_plain_text (colorama : option Debug.colours)
    (mpi : option Debug.comm) (stream : Debug.chan) (rank : Z)
    (calls : list Debug.cprint_call) (o : gmap Debug.chan (list string)) :
  match mpi with
  | Some world => Z.of_nat (Debug.comm_rank world) = rank
  | None => True
  end ->
  stream ≠ Debug.stdout ->
  ∃ p c,
    Debug._get_color_printer colorama mpi stream false rank o
    = (o, inr (p, c))
    ∧ Debug.text_of (Debug.written (Debug.cprint_all p c calls o) stream)
      = Debug.text_of (Debug.written o stream)
        +:+ Debug.text_of (Debug.call_text <$> calls).
Proof.
  intros Hrank Hne. eexists. eexists. split.
  - unfold Debug._get_color_printer. destruct mpi as [world|]; [|reflexivity].
    rewrite bool_decide_eq_false_2 by (intros H; by apply H). reflexivity.
  - cbn [Debug.Style].
    destruct (cprint_all_written stream Debug._NoColor
                (Debug.mkColours Debug._NoColor Debug._NoColor Debug._NoColor)
                calls o Hne) as [Hs _].
    rewrite Hs, text_of_app. f_equal. clear Hs.
    induction calls as [|k calls IH]; [done|].
    cbn [flat_map fmap list_fmap app]. unfold Debug.text_of in *.
    cbn [foldr]. rewrite colour_sum_no_color.
    unfold Debug._NoColor at 1. cbn [fmap] in IH. rewrite IH.
    reflexivity.
Qed.

(** X11.  Under MPI, on a process whose rank is not the requested one, a
    requested rank below the communicator's size (a negative one included)
    gives a printer that never writes anything. *)
Theorem other_ranks_print_nothing (colorama : option Debug.colours)
    (world : Debug.comm) (stream : Debug.chan) (colors : bool) (rank : Z)
    (calls : list Debug.cprint_call) (o : gmap Debug.chan (list string)) :
  Z.of_nat (Debug.comm_rank world) ≠ rank ->
  (rank < Z.of_nat (Debug.comm_size world))%Z ->
  ∃ p c,
    Debug._get_color_printer colorama (Some world) stream colors rank o
    = (o, inr (p, c))
    ∧ ∀ o', Debug.cprint_all p c calls o' = o'.
Proof.
  intros Hne Hlt. exists Debug.Silent. eexists. split.
  - unfold Debug._get_color_printer.
    rewrite bool_decide_eq_true_2 by done.
    rewrite bool_decide_eq_false_2 by lia. reflexivity.
  - intros o'. induction calls as [|k calls IH]; [done|]. exact IH.
Qed.

(** X12.  Under MPI, a requested rank at or above the communicator's size
    makes every process exit; the message goes to standard output on rank 0
    only, and no other stream is written. *)
Theorem rank_out_of_range_exits (colorama : option Debug.colours)
    (world : Debug.comm) (stream : Debug.chan) (colors : bool) (rank : Z)
    (o : gmap Debug.chan (list string)) :
  (Debug.comm_rank world < Debug.comm_size world)%nat ->
  (Z.of_nat (Debug.comm_size world) <= rank)%Z ->
  ∃ o',
    Debug._get_color_printer colorama (Some world) stream colors rank o
    = (o', inl Debug.SystemExit)
    ∧ (Debug.comm_rank world ≠ 0%nat -> o' = o)
    ∧ (Debug.comm_rank world = 0%nat ->
       Debug.written o' Debug.stdout
       = (Debug.written o Debug.stdout
          ++ ["Specified rank (" +:+ pretty rank
              +:+ ") is outside of the valid range (0-"
              +:+ pretty (Z.of_nat (Debug.comm_size world) - 1)%Z
              +:+ ")." +:+ Debug.newline])%list)
    ∧ (∀ c, c ≠ Debug.stdout -> Debug.written o' c = Debug.written o c).
Proof.
  intros Hrank Hge. eexists. split.
  - unfold Debug._get_color_printer.
    rewrite bool_decide_eq_true_2 by lia.
    rewrite bool_decide_eq_true_2 by done. reflexivity.
  - destruct (decide (Debug.comm_rank world = 0%nat)) as [H0|H0].
    + rewrite bool_decide_eq_true_2 by done.
      split; [done|]. split; [intros _; apply written_write_eq|].
      intros c Hc. by apply written_write_ne.
    + rewrite bool_decide_eq_false_2 by done. done.
Qed.

(** ** [dump_dist_idxs] *)

Lemma for_each_invariant {A S} (P : S -> Prop) (body : S -> A -> Debug.exn + S)
    (l : list A) (s s' : S) :
  (∀ s x s', P s -> body s x = inr s' -> P s') ->
  P s ->
  Debug.for_each body s l = inr s' ->
  P s'.
Proof.
  intros Hbody. revert s. induction l as [|x l IH]; intros s Hs Hrun.
  - cbn in Hrun. by simplify_eq.
  - cbn in Hrun. unfold Debug.and_then in Hrun.
    destruct (body s x) as [e|s1] eqn:Hx; [discriminate|].
    exact (IH s1 (Hbody s x s1 Hs Hx) Hrun).
Qed.

Lemma list_variable_ok (sizes : list (list Z)) (abs2idx : gmap string nat)
    (rank : nat) (acc acc' : Debug.listing) (vname : string) :
  (∃ offs, Debug.listing_ok acc offs) ->
  Debug.list_variable sizes abs2idx rank acc vname = inr acc' ->
  ∃ offs, Debug.listing_ok acc' offs.
Proof.
  intros [offs [Hstr Hsort Hbelow Hfirst Hwid]] Hrun.
  unfold Debug.list_variable in Hrun.
  destruct (abs2idx !! vname) as [ivar|]; [|simplify_eq; by exists offs].
  destruct (sizes !! rank ≫= (.!! ivar)) as [sz|]; [|discriminate].
  case_bool_decide as Hsz; [|simplify_eq; by exists offs].
  simplify_eq. exists (offs ++ [Debug.total acc])%list.
  split; cbn [Debug.data Debug.nwid Debug.iwid Debug.total].
  - rewrite !fmap_app, Hstr. reflexivity.
  - apply StronglySorted_app_2; [|done | repeat constructor].
    intros x y Hx Hy. apply list_elem_of_singleton in Hy as ->.
    rewrite Forall_forall in Hbelow. by apply Hbelow.
  - apply Forall_app. split.
    + eapply Forall_impl; [exact Hbelow|]. intros x Hx. cbn in Hx. lia.
    + constructor; [|constructor].
      destruct offs as [|x offs]; [lia|].
      apply Forall_cons in Hbelow as [Hx _]. lia.
  - destruct offs as [|x offs]; [exact Hfirst | exact Hfirst].
  - apply Forall_app. split.
    + eapply Forall_impl; [exact Hwid|]. intros d [Hn Hi]. cbn in *. lia.
    + constructor; [|constructor]. cbn. lia.
Qed.

Lemma get_data_ok (vec_name : string) (g : Debug.Group) (type_ : string)
    (data : list (string * string)) (nwid iwid : nat) :
  Debug._get_data vec_name g type_ = inr (data, nwid, iwid) ->
  ∃ acc offs, Debug.listing_ok acc offs
              ∧ Debug.data acc = data
              ∧ Debug.nwid acc = nwid
              ∧ Debug.iwid acc = iwid.
Proof.
  unfold Debug._get_data, Debug.and_then.
  destruct (Debug.getitem (Debug._var_sizes g) vec_name)
    as [?|by_type]; [discriminate|].
  destruct (Debug.getitem by_type type_) as [?|sizes]; [discriminate|].
  destruct (Debug.getitem (Debug._var_relevant_names g) vec_name)
    as [?|rel_by_type]; [discriminate|].
  destruct (Debug.getitem rel_by_type type_) as [?|rel]; [discriminate|].
  destruct (Debug.getitem (Debug._var_allprocs_abs2idx g) vec_name)
    as [?|abs2idx]; [discriminate|].
  destruct (Debug.for_each _ _ _) as [?|acc] eqn:Hloop; [discriminate|].
  intros [= <- <- <-]. exists acc.
  assert (Hok : ∃ offs, Debug.listing_ok acc offs).
  { eapply (for_each_invariant
              (fun acc => ∃ offs, Debug.listing_ok acc offs));
      [| |exact Hloop].
    - intros a rank a' Hacc Hbody. unfold Debug.and_then in Hbody.
      destruct (Debug.getitem _ _) as [e|names]; [discriminate|].
      eapply (for_each_invariant
                (fun acc => ∃ offs, Debug.listing_ok acc offs));
        [| exact Hacc | exact Hbody].
      intros b x b' Hb Hx. by eapply list_variable_ok.
    - exists []. split; cbn; try done; constructor. }
  destruct Hok as [offs Hok]. by exists offs.
Qed.

Lemma get_data_widths (vec_name : string) (g : Debug.Group)
    (type_ : string) (data : list (string * string)) (nwid iwid : nat) :
  Debug._get_data vec_name g type_ = inr (data, nwid, iwid) ->
  Forall (fun d => (String.length d.1 <= nwid)%nat
                   ∧ (String.length d.2 <= iwid)%nat) data.
Proof.
  intros Hrun.
  destruct (get_data_ok vec_name g type_ data nwid iwid Hrun)
    as (acc & offs & [_ _ _ _ Hwid] & <- & <- & <-).
  exact Hwid.
Qed.


Lemma spaces_length (n : nat) : String.length (Debug.spaces n) = n.
Proof.
  unfold Debug.spaces. induction n as [|n IH]; [done|].
  change (Nat.iter (S n) (String (Ascii.ascii_of_nat 32)) "")
    with (String (Ascii.ascii_of_nat 32)
            (Nat.iter n (String (Ascii.ascii_of_nat 32)) "")).
  cbn [String.length]. by rewrite IH.
Qed.

Lemma ljust_length (w : nat) (s : string) :
  (String.length s <= w)%nat -> String.length (Debug.ljust w s) = w.
Proof.
  intros H. unfold Debug.ljust. rewrite string_length_app, spaces_length. lia.
Qed.

Lemma rjust_length (w : nat) (s : string) :
  (String.length s <= w)%nat -> String.length (Debug.rjust w s) = w.
Proof.
  intros H. unfold Debug.rjust. rewrite string_length_app, spaces_length. lia.
Qed.

Lemma format_row_length (w0 w1 w2 w3 : nat) (d0 d1 d2 d3 : string) :
  (String.length d0 <= w0)%nat ->
  (String.length d1 <= w1)%nat ->
  (String.length d2 <= w2)%nat ->
  (String.length d3 <= w3)%nat ->
  String.length (Debug.format_row w0 w1 w2 w3 (d0, d1, d2, d3))
  = (w0 + w1 + w2 + w3 + 8)%nat.
Proof.
  intros H0 H1 H2 H3. unfold Debug.format_row.
  rewrite !string_length_app, !ljust_length, !rjust_length by done.
  cbn. lia.
Qed.

Lemma zip_longest_length {A} (fill : A) (l k : list A) :
  length (Debug.zip_longest fill l k) = (length l `max` length k)%nat.
Proof.
  revert k. induction l as [|x l IH]; intros [|y k]; cbn;
    rewrite ?length_fmap, ?IH; lia.
Qed.

Lemma zip_longest_Forall {A} (P Q : A -> Prop) (fill : A) (l k : list A) :
  P fill -> Q fill -> Forall P l -> Forall Q k ->
  Forall (fun xy => P xy.1 ∧ Q xy.2) (Debug.zip_longest fill l k).
Proof.
  intros HP HQ Hl. revert k. induction Hl as [|x l Hx Hl IH]; intros k Hk.
  - cbn. apply Forall_fmap. eapply Forall_impl; [exact Hk|]. by intros y Hy.
  - destruct Hk as [|y k Hy Hk]; cbn.
    + constructor; [done|]. apply Forall_fmap.
      eapply Forall_impl; [exact Hl|]. by intros z Hz.
    + constructor; [done|]. by apply IH.
Qed.

Lemma foldl_write (c : Debug.chan) (f : string * string * string * string
                                        -> string)
    (rows : list (string * string * string * string))
    (o : gmap Debug.chan (list string)) :
  Debug.written (foldl (fun o d => Debug.write c (f d) o) o rows) c
  = (Debug.written o c ++ (f <$> rows))%list
  ∧ ∀ c', c ≠ c' ->
          Debug.written (foldl (fun o d => Debug.write c (f d) o) o rows) c'
          = Debug.written o c'.
Proof.
  revert o. induction rows as [|d rows IH]; intros o.
  - cbn. by rewrite app_nil_r.
  - cbn [foldl fmap list_fmap]. destruct (IH (Debug.write c (f d) o))
      as [IHc IHo].
    split.
    + rewrite IHc, written_write_eq, <- app_assoc. reflexivity.
    + intros c' Hc'. rewrite IHo by done. by apply written_write_ne.
Qed.

(** X14.  When both listings can be built, [dump_dist_idxs] on the printing
    process writes to the stream one line per row, as many as the longer
    listing has entries, all of the same length (the four widths and eight
    more characters), then one blank pair of line feeds; it writes to no
    other stream. *)
Theorem dump_dist_idxs_lines_align (model : Debug.Group)
    (vec_name : string) (stream : Debug.chan)
    (o : gmap Debug.chan (list string))
    (pdata udata : list (string * string)) (pnwid piwid unwid uiwid : nat) :
  Debug._get_data vec_name model "input" = inr (pdata, pnwid, piwid) ->
  Debug._get_data vec_name model "output" = inr (udata, unwid, uiwid) ->
  ∃ o' lines,
    Debug.dump_dist_idxs None model vec_name stream o = inr o'
    ∧ Debug.written o' stream
      = (Debug.written o stream ++ lines
         ++ [Debug.newline +:+ Debug.newline])%list
    ∧ length lines = (length udata `max` length pdata)%nat
    ∧ Forall (fun line => String.length line
                          = (unwid + uiwid + piwid + pnwid + 8)%nat) lines
    ∧ (∀ c, c ≠ stream -> Debug.written o' c = Debug.written o c).
Proof.
  intros Hp Hu.
  pose proof (get_data_widths _ _ _ _ _ _ Hp) as Hpw.
  pose proof (get_data_widths _ _ _ _ _ _ Hu) as Huw.
  eexists. eexists. split.
  - unfold Debug.dump_dist_idxs, Debug._dump, Debug.and_then.
    rewrite Hp, Hu. reflexivity.
  - set (rows := (fun up : (string * string) * (string * string) =>
                    (up.1.1, up.1.2, up.2.2, up.2.1))
                 <$> Debug.zip_longest ("", "") udata pdata).
    set (f := Debug.format_row unwid uiwid piwid pnwid).
    destruct (foldl_write stream f (reverse rows) o) as [Hs Ho].
    split; [|split; [|split]].
    + rewrite written_write_eq, Hs, <- app_assoc. reflexivity.
    + rewrite length_fmap, length_reverse. unfold rows.
      rewrite length_fmap. apply zip_longest_length.
    + apply Forall_fmap, Forall_reverse. unfold rows. apply Forall_fmap.
      eapply Forall_impl.
      * apply (zip_longest_Forall
                 (fun d => (String.length d.1 <= unwid)%nat
                           ∧ (String.length d.2 <= uiwid)%nat)
                 (fun d => (String.length d.1 <= pnwid)%nat
                           ∧ (String.length d.2 <= piwid)%nat));
          [cbn; lia | cbn; lia | exact Huw | exact Hpw].
      * intros [[u0 u1] [p0 p1]] [[? ?] [? ?]]. cbn in *.
        by apply format_row_length.
    + intros c Hc. rewrite written_write_ne by done. by apply Ho.
Qed.

(** X21.  For a vector name the model has no sizes for, [dump_dist_idxs]
    raises [KeyError] where it prints (without MPI, or on rank 0) and
    returns normally, having written nothing, on every other rank. *)
Theorem dump_dist_idxs_unknown_vector (model : Debug.Group)
    (vec_name : string) (stream : Debug.chan)
    (o : gmap Debug.chan (list string)) :
  Debug._var_sizes model !! vec_name = None ->
  Debug.dump_dist_idxs None model vec_name stream o
  = inl (Debug.KeyError vec_name)
  ∧ ∀ world,
      Debug.dump_dist_idxs (Some world) model vec_name stream o
      = if bool_decide (Debug.comm_rank world = 0%nat)
        then inl (Debug.KeyError vec_name)
        else inr o.
Proof.
  intros Hmiss.
  assert (Hdump : Debug._dump vec_name model stream o
                  = inl (Debug.KeyError vec_name)).
  { unfold Debug._dump, Debug._get_data, Debug.and_then, Debug.getitem.
    by rewrite Hmiss. }
  split; [exact Hdump|].
  intros world. unfold Debug.dump_dist_idxs. by rewrite Hdump.
Qed.

(** ** [compare_jacs] *)

Lemma fabs_nonneg (x : Qc) : 0 <= Debug.fabs x.
Proof.
  unfold Debug.fabs. destruct (decide (0 <= x)) as [H|H]; [done|].
  apply Qcnot_le_lt in H. apply Qclt_le_weak in H.
  apply Qcopp_le_compat in H. by replace (- 0) with 0 in H by ring.
Qed.

Lemma fabs_zero : Debug.fabs 0 = 0.
Proof. reflexivity. Qed.

Lemma argmax_spec (l : list Qc) (i : nat) (m : Qc) :
  Debug.argmax l = Some (i, m) ->
  l !! i = Some m ∧ Forall (fun y => y <= m) l.
Proof.
  revert i m. induction l as [|x l IH]; intros i m Hrun; [discriminate|].
  cbn [Debug.argmax] in Hrun.
  destruct (Debug.argmax l) as [[j n]|] eqn:Hl.
  - destruct (IH j n eq_refl) as [Hj Hall].
    case_bool_decide as Hle; simplify_eq.
    + split; [done|]. constructor; [apply Qcle_refl|].
      eapply Forall_impl; [exact Hall|]. intros y Hy.
      by apply Qcle_trans with n.
    + split; [done|]. constructor; [|done].
      apply Qclt_le_weak. by apply Qcnot_le_lt.
  - simplify_eq. split; [done|]. constructor; [apply Qcle_refl|].
    destruct l as [|y l]; [constructor|]. cbn in Hl.
    destruct (Debug.argmax l) as [[? ?]|]; [case_bool_decide|]; discriminate.
Qed.

Lemma argmax_is_Some (l : list Qc) : l ≠ [] -> is_Some (Debug.argmax l).
Proof.
  destruct l as [|x l]; [done|]. intros _. cbn.
  destruct (Debug.argmax l) as [[? ?]|]; [case_bool_decide|]; eauto.
Qed.

Lemma compare_arrays_run (t : Qc) (subJ subJref : list Qc) (m : Qc)
    (kind : string) :
  Debug.compare_arrays t subJ subJref = inr (m, kind) ->
  ∃ i, Debug.scaled_diff t subJ subJref !! i = Some m
       ∧ Forall (fun y => y <= m) (Debug.scaled_diff t subJ subJref).
Proof.
  unfold Debug.compare_arrays.
  destruct (Debug.argmax _) as [[i n]|] eqn:Hmax; [|discriminate].
  destruct (argmax_spec _ _ _ Hmax) as [Hi Hall].
  destruct ((Debug.fabs <$> subJref) !! i); [|discriminate].
  destruct (bool_decide _); intros [= <- <-]; eauto.
Qed.

Lemma scaled_diff_lookup (t : Qc) (subJ subJref : list Qc) (i : nat)
    (a r : Qc) :
  subJ !! i = Some a ->
  subJref !! i = Some r ->
  Debug.scaled_diff t subJ subJref !! i
  = Some (if bool_decide (t < Debug.fabs r)
          then Debug.fabs (a - r) / Debug.fabs r
          else Debug.fabs (a - r)).
Proof.
  intros Ha Hr. unfold Debug.scaled_diff.
  rewrite lookup_zip_with, !list_lookup_fmap, lookup_zip_with, Ha, Hr.
  reflexivity.
Qed.

Lemma scaled_diff_inv (t : Qc) (subJ subJref : list Qc) (i : nat) (y : Qc) :
  Debug.scaled_diff t subJ subJref !! i = Some y ->
  ∃ a r, subJ !! i = Some a ∧ subJref !! i = Some r
         ∧ y = (if bool_decide (t < Debug.fabs r)
                then Debug.fabs (a - r) / Debug.fabs r
                else Debug.fabs (a - r)).
Proof.
  unfold Debug.scaled_diff.
  rewrite lookup_zip_with, !list_lookup_fmap, lookup_zip_with.
  destruct (subJ !! i) as [a|]; [|discriminate].
  destruct (subJref !! i) as [r|]; [|discriminate].
  cbn. intros [= <-]. eauto.
Qed.

Lemma Qcdiv_nonneg (d a : Qc) : 0 <= d -> 0 < a -> 0 <= d / a.
Proof.
  intros Hd Ha. unfold Qcdiv. apply Qcmult_nonneg_nonneg; [done|].
  apply Qclt_le_weak. by apply Qcinv_pos.
Qed.

Lemma Qcdiv_le_mult (d a m : Qc) : 0 < a -> d / a <= m -> d <= m * a.
Proof.
  intros Ha Hle.
  assert (Hne : a ≠ 0) by (intros ->; by apply (Qclt_not_le _ _ Ha)).
  rewrite <- (test_field d a Hne).
  apply Qcmult_le_compat_r; [done | by apply Qclt_le_weak].
Qed.

Section CompareJacsFacts.

Context `{Countable K}.

(** Each result comes from the comparison of the two arrays of its key, key
    by key in the order the keys are walked. *)
Lemma compare_jacs_entries (Jref J : gmap K (list Qc)) (t : Qc)
    (results : list (K * Qc * string)) :
  Debug.compare_jacs Jref J t = inr results ->
  Forall2 (fun key x =>
             x.1.1 = key
             ∧ Debug.compare_arrays t (Debug.operands Jref J key).1
                 (Debug.operands Jref J key).2 = inr (x.1.2, x.2))
          (elements (dom J ∪ dom Jref)) results.
Proof.
  unfold Debug.compare_jacs.
  assert (Hgen : ∀ keys acc res,
    Debug.for_each
      (fun results key =>
         let '(subJ, subJref) := Debug.operands Jref J key in
         Debug.and_then (Debug.compare_arrays t subJ subJref)
           (fun r => inr (results ++ [(key, r.1, r.2)])%list)) acc keys
    = inr res ->
    ∃ rs, res = (acc ++ rs)%list
          ∧ Forall2 (fun key x =>
                       x.1.1 = key
                       ∧ Debug.compare_arrays t (Debug.operands Jref J key).1
                           (Debug.operands Jref J key).2 = inr (x.1.2, x.2))
                    keys rs).
  { induction keys as [|key keys IH]; intros acc res Hrun.
    - cbn in Hrun. simplify_eq. exists []. by rewrite app_nil_r.
    - cbn [Debug.for_each] in Hrun. unfold Debug.and_then at 1 in Hrun.
      destruct (Debug.operands Jref J key) as [subJ subJref] eqn:Hop.
      unfold Debug.and_then at 1 in Hrun.
      destruct (Debug.compare_arrays t subJ subJref) as [e|[m kind]] eqn:Hc;
        [discriminate|].
      destruct (IH _ _ Hrun) as (rs & -> & Hrs).
      exists ((key, m, kind) :: rs). split.
      + by rewrite <- app_assoc.
      + constructor; [|exact Hrs]. by rewrite Hop. }
  intros Hrun. destruct (Hgen _ _ _ Hrun) as (rs & -> & Hrs). exact Hrs.
Qed.

Lemma compare_jacs_entry (Jref J : gmap K (list Qc)) (t : Qc)
    (results : list (K * Qc * string)) (key : K) (m : Qc) (kind : string) :
  Debug.compare_jacs Jref J t = inr results ->
  (key, m, kind) ∈ results ->
  Debug.compare_arrays t (Debug.operands Jref J key).1
    (Debug.operands Jref J key).2 = inr (m, kind).
Proof.
  intros Hrun Hin. pose proof (compare_jacs_entries _ _ _ _ Hrun) as Hall.
  apply list_elem_of_lookup in Hin as [i Hi].
  destruct (Forall2_lookup_r _ _ _ _ _ Hall Hi) as (k & _ & Hk & Hc).
  cbn in Hk, Hc. by subst k.
Qed.

(** X15.  In every result of [compare_jacs], with a non-negative trigger,
    the difference reported is not negative and bounds every entry the two
    arrays both have: the absolute difference where the reference entry is
    at most the trigger in absolute value, the difference relative to the
    reference entry where it is above. *)
Theorem compare_jacs_reports_a_bound (Jref J : gmap K (list Qc)) (t : Qc)
    (results : list (K * Qc * string)) :
  0 <= t ->
  Debug.compare_jacs Jref J t = inr results ->
  Forall (fun x =>
            0 <= x.1.2
            ∧ ∀ i a r,
                (Debug.operands Jref J x.1.1).1 !! i = Some a ->
                (Debug.operands Jref J x.1.1).2 !! i = Some r ->
                (t < Debug.fabs r ->
                 Debug.fabs (a - r) <= x.1.2 * Debug.fabs r)
                ∧ (Debug.fabs r <= t -> Debug.fabs (a - r) <= x.1.2))
         results.
Proof.
  intros Ht Hrun. apply Forall_forall. intros [[key m] kind] Hin.
  cbn [fst snd].
  pose proof (compare_jacs_entry _ _ _ _ _ _ _ Hrun Hin) as Hc.
  destruct (compare_arrays_run _ _ _ _ _ Hc) as (j & Hj & Hall).
  split.
  - destruct (scaled_diff_inv _ _ _ _ _ Hj) as (a & r & _ & _ & ->).
    case_bool_decide as Hrel; [|apply fabs_nonneg].
    apply Qcdiv_nonneg; [apply fabs_nonneg|].
    by apply Qcle_lt_trans with t.
  - intros i a r Ha Hr.
    pose proof (scaled_diff_lookup t _ _ _ _ _ Ha Hr) as Hi.
    rewrite Forall_forall in Hall.
    pose proof (Hall _ (list_elem_of_lookup_2 _ _ _ Hi)) as Hle.
    split.
    + intros Hrel. rewrite bool_decide_eq_true_2 in Hle by done.
      apply Qcdiv_le_mult; [|done]. by apply Qcle_lt_trans with t.
    + intros Hsmall. rewrite bool_decide_eq_false_2 in Hle; [done|].
      by apply Qcle_not_lt.
Qed.

Lemma for_each_returns {A S} (body : S -> A -> Debug.exn + S) (l : list A)
    (s : S) :
  (∀ s x, x ∈ l -> ∃ s', body s x = inr s') ->
  ∃ s', Debug.for_each body s l = inr s'.
Proof.
  revert s. induction l as [|x l IH]; intros s Hbody; [by eexists|].
  cbn. destruct (Hbody s x) as [s1 Hs1]; [left|].
  unfold Debug.and_then. rewrite Hs1. apply IH.
  intros s2 y Hy. apply Hbody. by right.
Qed.

Lemma compare_arrays_returns (t : Qc) (subJ subJref : list Qc) :
  subJ ≠ [] -> subJref ≠ [] ->
  ∃ r, Debug.compare_arrays t subJ subJref = inr r.
Proof.
  intros HJ Href. unfold Debug.compare_arrays.
  destruct (argmax_is_Some (Debug.scaled_diff t subJ subJref))
    as [[i m] Hmax].
  { destruct subJ, subJref; done. }
  rewrite Hmax. destruct (argmax_spec _ _ _ Hmax) as [Hi _].
  destruct (scaled_diff_inv _ _ _ _ _ Hi) as (a & r & _ & Hr & _).
  rewrite list_lookup_fmap, Hr. cbn. destruct (bool_decide _); eauto.
Qed.

Lemma operands_nonempty (Jref J : gmap K (list Qc)) (key : K) :
  (∀ k a, J !! k = Some a -> a ≠ []) ->
  (∀ k a, Jref !! k = Some a -> a ≠ []) ->
  key ∈ dom J ∪ dom Jref ->
  (Debug.operands Jref J key).1 ≠ [] ∧ (Debug.operands Jref J key).2 ≠ [].
Proof.
  intros HJ Href Hkey. unfold Debug.operands. cbn [fst snd].
  destruct (J !! key) as [a|] eqn:Ha, (Jref !! key) as [r|] eqn:Hr; cbn.
  - eauto.
  - split; [eauto|]. pose proof (HJ _ _ Ha). by destruct a.
  - split; [|eauto]. pose proof (Href _ _ Hr). by destruct r.
  - apply elem_of_union in Hkey as [Hk|Hk];
      apply elem_of_dom in Hk as [? Hk]; congruence.
Qed.

Lemma compare_jacs_returns (Jref J : gmap K (list Qc)) (t : Qc) :
  (∀ k a, J !! k = Some a -> a ≠ []) ->
  (∀ k a, Jref !! k = Some a -> a ≠ []) ->
  ∃ results,
    Debug.compare_jacs Jref J t = inr results
    ∧ results.*1.*1 = elements (dom J ∪ dom Jref).
Proof.
  intros HJ Href.
  destruct (for_each_returns
              (fun results key =>
                 let '(subJ, subJref) := Debug.operands Jref J key in
                 Debug.and_then (Debug.compare_arrays t subJ subJref)
                   (fun r => inr (results ++ [(key, r.1, r.2)])%list))
              (elements (dom J ∪ dom Jref)) []) as [results Hrun].
  { intros acc key Hkey. apply elem_of_elements in Hkey.
    destruct (operands_nonempty Jref J key HJ Href Hkey) as [H1 H2].
    destruct (Debug.operands Jref J key) as [subJ subJref]. cbn in H1, H2.
    destruct (compare_arrays_returns t subJ subJref H1 H2) as [r Hr].
    unfold Debug.and_then. rewrite Hr. eauto. }
  exists results. split; [exact Hrun|].
  pose proof (compare_jacs_entries _ _ _ _ Hrun) as Hall.
  clear Hrun. induction Hall as [|key x keys rs [Hx _] _ IH]; [done|].
  cbn. by rewrite Hx, IH.
Qed.


Lemma fabs_sub_diag (x : Qc) : Debug.fabs (x - x) = 0.
Proof. by replace (x - x) with 0 by ring. Qed.

Lemma Qcdiv_zero_l (y : Qc) : 0 / y = 0.
Proof. unfold Qcdiv. ring. Qed.

(** X17.  A Jacobian compared with itself (no array empty, a non-negative
    trigger) gives a zero difference for every key. *)
Theorem compare_jacs_same_is_zero (J : gmap K (list Qc)) (t : Qc) :
  0 <= t ->
  (∀ k a, J !! k = Some a -> a ≠ []) ->
  ∃ results,
    Debug.compare_jacs J J t = inr results
    ∧ Forall (fun x => x.1.2 = 0) results.
Proof.
  intros Ht HJ.
  destruct (compare_jacs_returns J J t HJ HJ)
    as (results & Hrun & Hkeys).
  exists results. split; [exact Hrun|].
  apply Forall_forall. intros [[key m] kind] Hin. cbn.
  assert (Hk : key ∈ dom J ∪ dom J).
  { apply elem_of_elements. rewrite <- Hkeys.
    apply list_elem_of_fmap. exists (key, m).
    split; [done|]. apply list_elem_of_fmap. by exists (key, m, kind). }
  apply elem_of_union in Hk as [Hk|Hk];
    apply elem_of_dom in Hk as [a Ha].
  all: pose proof (compare_jacs_entry _ _ _ _ _ _ _ Hrun Hin) as Hc.
  all: unfold Debug.operands in Hc; rewrite Ha in Hc; cbn [fst snd] in Hc.
  all: destruct (compare_arrays_run _ _ _ _ _ Hc) as (j & Hj & _).
  all: destruct (scaled_diff_inv _ _ _ _ _ Hj) as (x & y & Hx & Hy & ->).
  all: assert (x = y) as -> by congruence.
  all: rewrite fabs_sub_diag; destruct (bool_decide _);
    [apply Qcdiv_zero_l | reflexivity].
Qed.

Lemma fabs_opp (x : Qc) : Debug.fabs (- x) = Debug.fabs x.
Proof.
  unfold Debug.fabs.
  destruct (decide (0 <= - x)) as [H1|H1], (decide (0 <= x)) as [H2|H2].
  - apply Qcopp_le_compat in H1.
    replace (- - x) with x in H1 by ring. replace (- 0) with 0 in H1 by ring.
    assert (x = 0) as -> by (by apply Qcle_antisym). reflexivity.
  - reflexivity.
  - ring.
  - exfalso. apply H1. apply Qcnot_le_lt, Qclt_le_weak in H2.
    apply Qcopp_le_compat in H2. by replace (- 0) with 0 in H2 by ring.
Qed.

(** X18.  For a key that [J] lacks altogether, whatever the size of the
    reference entries, the difference reported is at most 1 or at most the
    trigger (taken non-negative). *)
Theorem compare_jacs_missing_block_is_capped (Jref J : gmap K (list Qc))
    (t : Qc) (results : list (K * Qc * string)) :
  0 <= t ->
  Debug.compare_jacs Jref J t = inr results ->
  Forall (fun x => J !! x.1.1 = None -> x.1.2 <= 1 ∨ x.1.2 <= t) results.
Proof.
  intros Ht Hrun. apply Forall_forall. intros [[key m] kind] Hin.
  cbn [fst snd]. intros Hmiss.
  pose proof (compare_jacs_entry _ _ _ _ _ _ _ Hrun Hin) as Hc.
  unfold Debug.operands in Hc. rewrite Hmiss in Hc. cbn [fst snd] in Hc.
  destruct (compare_arrays_run _ _ _ _ _ Hc) as (j & Hj & _).
  destruct (scaled_diff_inv _ _ _ _ _ Hj) as (a & r & Ha & Hr & ->).
  apply lookup_replicate in Ha as [-> _].
  replace (0 - r) with (- r) by ring. rewrite fabs_opp.
  case_bool_decide as Hrel.
  - left. assert (Hne : Debug.fabs r ≠ 0).
    { intros Hz. rewrite Hz in Hrel. by apply (Qcle_not_lt _ _ Ht). }
    unfold Qcdiv. rewrite Qcmult_inv_r by done. apply Qcle_refl.
  - right. by apply Qcnot_lt_le.
Qed.

Lemma for_each_error {A S} (body : S -> A -> Debug.exn + S) (l : list A)
    (s : S) (e : Debug.exn) :
  Debug.for_each body s l = inl e ->
  ∃ s' x, x ∈ l ∧ body s' x = inl e.
Proof.
  revert s. induction l as [|x l IH]; intros s Hrun; [discriminate|].
  cbn in Hrun. unfold Debug.and_then in Hrun.
  destruct (body s x) as [e'|s1] eqn:Hx.
  - simplify_eq. exists s, x. split; [left | done].
  - destruct (IH s1 Hrun) as (s' & y & Hy & Hb).
    exists s', y. split; [by right | done].
Qed.

Lemma compare_arrays_error (t : Qc) (subJ subJref : list Qc)
    (e : Debug.exn) :
  Debug.compare_arrays t subJ subJref = inl e ->
  e = Debug.ValueError "attempt to get argmax of an empty sequence".
Proof.
  unfold Debug.compare_arrays.
  destruct (Debug.argmax _) as [[i m]|] eqn:Hmax; [|by intros [= <-]].
  destruct (argmax_spec _ _ _ Hmax) as [Hi _].
  destruct (scaled_diff_inv _ _ _ _ _ Hi) as (a & r & _ & Hr & _).
  rewrite list_lookup_fmap, Hr. cbn. by destruct (bool_decide _).
Qed.

(** X22.  If [J] holds an empty array for a key that [Jref] lacks or also
    holds empty, [compare_jacs] raises [ValueError] and returns no result at
    all. *)
Theorem compare_jacs_empty_array_raises (Jref J : gmap K (list Qc)) (t : Qc)
    (key : K) :
  J !! key = Some [] ->
  default [] (Jref !! key) = [] ->
  ∃ msg, Debug.compare_jacs Jref J t = inl (Debug.ValueError msg).
Proof.
  intros Hkey Href.
  destruct (Debug.compare_jacs Jref J t) as [e|results] eqn:Hrun.
  - unfold Debug.compare_jacs in Hrun.
    destruct (for_each_error _ _ _ _ Hrun) as (acc & k & _ & Hb).
    destruct (Debug.operands Jref J k) as [subJ subJref].
    unfold Debug.and_then in Hb.
    destruct (Debug.compare_arrays t subJ subJref) as [e'|r] eqn:Hc;
      [|discriminate].
    simplify_eq. eexists. f_equal. by eapply compare_arrays_error.
  - exfalso. pose proof (compare_jacs_entries _ _ _ _ Hrun) as Hall.
    assert (Hin : key ∈ elements (dom J ∪ dom Jref)).
    { apply elem_of_elements, elem_of_union. left.
      apply elem_of_dom. by eexists. }
    apply list_elem_of_lookup in Hin as [i Hi].
    destruct (Forall2_lookup_l _ _ _ _ _ Hall Hi) as (x & _ & _ & Hc).
    unfold Debug.operands in Hc. rewrite Hkey in Hc. cbn [fst snd] in Hc.
    unfold Debug.compare_arrays, Debug.scaled_diff in Hc. cbn in Hc.
    discriminate.
Qed.

End CompareJacsFacts.

(** ** [trace_mpi] *)

Lemma print_line_stack (args : list string) (t : Debug.tracer) :
  Debug.stack (Debug.print_line args t) = Debug.stack t.
Proof. reflexivity. Qed.

Lemma print_c_func_stack (f : Debug.frame) (arg : Debug.c_function)
    (typestr : string) (t : Debug.tracer) :
  Debug.stack (Debug._print_c_func f arg typestr t) = Debug.stack t.
Proof. unfold Debug._print_c_func. by destruct (_ || _). Qed.

(** The stack after a call: unchanged, one entry more, or the count of the
    top raised by one. *)
Lemma on_call_stack (skip : list string) (f : Debug.frame)
    (t : Debug.tracer) :
  Debug.stack (Debug.on_call skip f t)
  = if Debug.contains "openmdao" (Debug.co_filename f)
       && negb (bool_decide (Debug.co_name f ∈ skip))
    then match Debug.pname_of f with
         | Some pname =>
             match Debug.stack t with
             | (top, n) :: rest =>
                 if bool_decide (pname ≠ top)
                 then (pname, 1%Z) :: Debug.stack t
                 else (top, (n + 1)%Z) :: rest
             | [] => [(pname, 1%Z)]
             end
         | None => Debug.stack t
         end
    else Debug.stack t.
Proof.
  unfold Debug.on_call.
  destruct (Debug.contains _ _); [|done].
  destruct (bool_decide (Debug.co_name f ∈ skip)); [done|]. cbn [andb negb].
  rewrite print_line_stack.
  destruct (Debug.pname_of f) as [pname|]; [|done].
  destruct (Debug.stack t) as [|[top n] rest] eqn:Hs; [done|].
  by destruct (bool_decide (pname ≠ top)).
Qed.

(** The stack after a return: unchanged, the top removed, or its count
    lowered by one. *)
Lemma on_return_stack (skip : list string) (f : Debug.frame)
    (t : Debug.tracer) :
  Debug.stack (Debug.on_return skip f t)
  = if Debug.contains "openmdao" (Debug.co_filename f)
       && negb (bool_decide (Debug.co_name f ∈ skip))
    then match Debug.pname_of f with
         | Some pname =>
             match Debug.stack t with
             | (top, n) :: rest =>
                 if bool_decide (pname = top)
                 then if bool_decide (n - 1 < 1)%Z
                      then rest
                      else (top, (n - 1)%Z) :: rest
                 else Debug.stack t
             | [] => []
             end
         | None => Debug.stack t
         end
    else Debug.stack t.
Proof.
  unfold Debug.on_return.
  destruct (Debug.contains _ _); [|done].
  destruct (bool_decide (Debug.co_name f ∈ skip)); [done|]. cbn [andb negb].
  destruct (Debug.pname_of f) as [pname|]; [|done].
  rewrite print_line_stack.
  destruct (Debug.stack t) as [|[top n] rest] eqn:Hs; [done|].
  destruct (bool_decide (pname = top)); [|done].
  destruct (bool_decide (n - 1 < 1)%Z); [|done].
  cbn [Debug.stack]. by destruct rest as [|[below ?] ?].
Qed.

Lemma callback_keeps_stack_ok (skip : list string) (ev : Debug.event)
    (t : Debug.tracer) :
  Debug.stack_ok (Debug.stack t) ->
  Debug.stack_ok (Debug.stack (Debug._mpi_trace_callback skip ev t)).
Proof.
  intros Hok. destruct ev as [f|f|f arg|f arg|f arg];
    cbn [Debug._mpi_trace_callback];
    rewrite ?print_c_func_stack; try done.
  - rewrite on_call_stack. destruct (_ && _); [|done].
    destruct (Debug.pname_of f) as [pname|]; [|done].
    destruct (Debug.stack t) as [|[top n] rest]; [done|].
    case_bool_decide as Hne.
    + cbn. cbn in Hok. split; [lia|]. done.
    + cbn in Hok |- *. destruct Hok as (Hn & Hnb & Hrest).
      split; [lia|]. done.
  - rewrite on_return_stack. destruct (_ && _); [|done].
    destruct (Debug.pname_of f) as [pname|]; [|done].
    destruct (Debug.stack t) as [|[top n] rest]; [done|].
    destruct (bool_decide (pname = top)); [|done].
    cbn in Hok. destruct Hok as (Hn & Hnb & Hrest).
    case_bool_decide as Hlast; [done|].
    cbn. split; [lia|]. done.
Qed.

Lemma trace_stack_ok (skip : list string) (evs : list Debug.event)
    (t : Debug.tracer) :
  Debug.stack_ok (Debug.stack t) ->
  Debug.stack_ok (Debug.stack (Debug.trace skip evs t)).
Proof.
  revert t. unfold Debug.trace.
  induction evs as [|ev evs IH]; intros t Hok; [done|].
  cbn [foldl]. apply IH. by apply callback_keeps_stack_ok.
Qed.

(** X19.  From the start of a trace on, whatever the events, every count
    on the stack of the tracer is at least 1 and neighbouring entries have
    different names. *)
Theorem trace_keeps_stack_ok (mpi : option Debug.comm) (fname name : string)
    (t0 : Debug.tracer) (skip : list string) (evs : list Debug.event) :
  Debug.trace_mpi mpi false fname = inr (name, t0) ->
  Debug.stack_ok (Debug.stack (Debug.trace skip evs t0)).
Proof.
  intros Hstart. apply trace_stack_ok.
  unfold Debug.trace_mpi in Hstart. destruct mpi; by simplify_eq.
Qed.

Lemma trace_app (skip : list string) (evs evs' : list Debug.event)
    (t : Debug.tracer) :
  Debug.trace skip (evs ++ evs') t
  = Debug.trace skip evs' (Debug.trace skip evs t).
Proof. unfold Debug.trace. apply foldl_app. Qed.

(** A call and the return of the same frame, with the stack in between as
    the call left it, restore the stack. *)
Lemma call_then_return (skip : list string) (f : Debug.frame)
    (t t' : Debug.tracer) :
  Debug.stack_ok (Debug.stack t) ->
  Debug.stack t' = Debug.stack (Debug.on_call skip f t) ->
  Debug.stack (Debug.on_return skip f t') = Debug.stack t.
Proof.
  intros Hok Ht'. rewrite on_return_stack, Ht', on_call_stack.
  destruct (_ && _); [|done].
  destruct (Debug.pname_of f) as [pname|]; [|done].
  destruct (Debug.stack t) as [|[top n] rest].
  - rewrite bool_decide_eq_true_2 by done.
    by rewrite bool_decide_eq_true_2 by lia.
  - cbn in Hok. destruct Hok as (Hn & _).
    case_bool_decide as Hne.
    + rewrite bool_decide_eq_true_2 by done.
      by rewrite bool_decide_eq_true_2 by lia.
    + subst top.
      rewrite bool_decide_eq_true_2 by done.
      rewrite bool_decide_eq_false_2 by lia.
      do 2 f_equal. lia.
Qed.


(** ** The theorems on the concrete model *)

Lemma color_print_line_ends_go_to_stdout_witness :
  Debug.written
    (Debug.cprint_all (Debug.Loud 1%nat Debug._NoColor)
       (Debug.mkColours Debug._NoColor Debug._NoColor Debug._NoColor)
       DebugSample.calls ∅) 1%nat
  = (Debug.written ∅ 1%nat
     ++ flat_map (fun k => [Debug.colour_sum
                              (Debug.mkColours Debug._NoColor Debug._NoColor
                                 Debug._NoColor) (Debug.call_color k)
                            +:+ Debug.call_text k;
                            Debug._NoColor "RESET_ALL"]) DebugSample.calls)%list
  ∧ Debug.written
      (Debug.cprint_all (Debug.Loud 1%nat Debug._NoColor)
         (Debug.mkColours Debug._NoColor Debug._NoColor Debug._NoColor)
         DebugSample.calls ∅) Debug.stdout
    = (Debug.written ∅ Debug.stdout
       ++ (Debug.call_end <$> DebugSample.calls))%list.
Proof.
  apply (color_print_line_ends_go_to_stdout 1%nat Debug._NoColor
           (Debug.mkColours Debug._NoColor Debug._NoColor Debug._NoColor)
           DebugSample.calls ∅).
  discriminate.
Defined.

Lemma colors_off_writes_plain_text_witness :
  ∃ p c,
    Debug._get_color_printer None (Some (Debug.mkComm 0 2)) 1%nat false 0 ∅
    = (∅, inr (p, c))
    ∧ Debug.text_of
        (Debug.written (Debug.cprint_all p c DebugSample.calls ∅) 1%nat)
      = Debug.text_of (Debug.written ∅ 1%nat)
        +:+ Debug.text_of (Debug.call_text <$> DebugSample.calls).
Proof.
  apply (colors_off_writes_plain_text None (Some (Debug.mkComm 0 2)) 1%nat
           0%Z DebugSample.calls ∅).
  - reflexivity.
  - discriminate.
Defined.

Lemma other_ranks_print_nothing_witness :
  ∃ p c,
    Debug._get_color_printer None (Some (Debug.mkComm 1 2)) 1%nat true 0 ∅
    = (∅, inr (p, c))
    ∧ ∀ o', Debug.cprint_all p c DebugSample.calls o' = o'.
Proof.
  apply (other_ranks_print_nothing None (Debug.mkComm 1 2) 1%nat true 0%Z
           DebugSample.calls ∅).
  - discriminate.
  - reflexivity.
Defined.

Lemma rank_out_of_range_exits_witness :
  ∃ o',
    Debug._get_color_printer None (Some (Debug.mkComm 0 2)) 1%nat true 5 ∅
    = (o', inl Debug.SystemExit)
    ∧ (0%nat ≠ 0%nat -> o' = ∅)
    ∧ (0%nat = 0%nat ->
       Debug.written o' Debug.stdout
       = (Debug.written ∅ Debug.stdout
          ++ ["Specified rank (" +:+ pretty 5%Z
              +:+ ") is outside of the valid range (0-"
              +:+ pretty (Z.of_nat 2 - 1)%Z
              +:+ ")." +:+ Debug.newline])%list)
    ∧ (∀ c, c ≠ Debug.stdout -> Debug.written o' c = Debug.written ∅ c).
Proof.
  apply (rank_out_of_range_exits None (Debug.mkComm 0 2) 1%nat true 5%Z ∅).
  - cbn. lia.
  - cbn. lia.
Defined.


Lemma dump_dist_idxs_lines_align_witness :
  ∃ o' lines,
    Debug.dump_dist_idxs None DebugSample.model "nonlinear" 1%nat ∅ = inr o'
    ∧ Debug.written o' 1%nat
      = (Debug.written ∅ 1%nat ++ lines
         ++ [Debug.newline +:+ Debug.newline])%list
    ∧ length lines = (3 `max` 3)%nat
    ∧ Forall (fun line => String.length line = (4 + 1 + 1 + 4 + 8)%nat) lines
    ∧ (∀ c, c ≠ 1%nat -> Debug.written o' c = Debug.written ∅ c).
Proof.
  apply (dump_dist_idxs_lines_align DebugSample.model "nonlinear" 1%nat ∅
           [("C1.x", "0"); ("C1.x", "1"); ("C2.x", "3")]
           [("C1.y", "0"); ("C2.y", "3"); ("C2.y", "5")] 4 1 4 1).
  - reflexivity.
  - reflexivity.
Defined.

Lemma compare_jacs_reports_a_bound_witness :
  Forall (fun x =>
            0 <= x.1.2
            ∧ ∀ i a r,
                (Debug.operands DebugSample.Jref DebugSample.J x.1.1).1 !! i
                = Some a ->
                (Debug.operands DebugSample.Jref DebugSample.J x.1.1).2 !! i
                = Some r ->
                (1 < Debug.fabs r ->
                 Debug.fabs (a - r) <= x.1.2 * Debug.fabs r)
                ∧ (Debug.fabs r <= 1 -> Debug.fabs (a - r) <= x.1.2))
         DebugSample.results.
Proof.
  apply (compare_jacs_reports_a_bound DebugSample.Jref DebugSample.J 1).
  - discriminate.
  - vm_compute. reflexivity.
Defined.


Lemma compare_jacs_same_is_zero_witness :
  ∃ results,
    Debug.compare_jacs DebugSample.Jref DebugSample.Jref 1 = inr results
    ∧ Forall (fun x => x.1.2 = 0) results.
Proof.
  apply (compare_jacs_same_is_zero DebugSample.Jref 1).
  - discriminate.
  - intros k a Hk. unfold DebugSample.Jref in Hk.
    apply lookup_insert_Some in Hk as [[_ <-]|[_ Hk]]; [discriminate|].
    apply lookup_singleton_Some in Hk as [_ <-]. discriminate.
Defined.

Lemma compare_jacs_missing_block_is_capped_witness :
  Forall (fun x => DebugSample.J !! x.1.1 = None -> x.1.2 <= 1 ∨ x.1.2 <= 1)
         DebugSample.results.
Proof.
  apply (compare_jacs_missing_block_is_capped DebugSample.Jref DebugSample.J
           1).
  - discriminate.
  - vm_compute. reflexivity.
Defined.

Lemma trace_keeps_stack_ok_witness :
  Debug.stack_ok
    (Debug.stack (Debug.trace ["skipped"] (take 3 DebugSample.events)
                    (Debug.mkTracer [] []))).
Proof.
  apply (trace_keeps_stack_ok (Some (Debug.mkComm 0 2)) "mpi_trace"
           "mpi_trace.0").
  reflexivity.
Defined.


Lemma dump_dist_idxs_unknown_vector_witness :
  Debug.dump_dist_idxs None DebugSample.model "linear" 1%nat ∅
  = inl (Debug.KeyError "linear")
  ∧ ∀ world,
      Debug.dump_dist_idxs (Some world) DebugSample.model "linear" 1%nat ∅
      = if bool_decide (Debug.comm_rank world = 0%nat)
        then inl (Debug.KeyError "linear")
        else inr ∅.
Proof.
  apply (dump_dist_idxs_unknown_vector DebugSample.model "linear" 1%nat ∅).
  reflexivity.
Defined.

Lemma compare_jacs_empty_array_raises_witness :
  ∃ msg,
    Debug.compare_jacs DebugSample.J
      (<[("z", "x") := []]> DebugSample.J) 1
    = inl (Debug.ValueError msg).
Proof.
  apply (compare_jacs_empty_array_raises DebugSample.J
           (<[("z", "x") := []]> DebugSample.J) 1 ("z", "x"));
    reflexivity.
Defined.
